(** * Flicker (chipTAN optical) encoder and animator of gnc-flicker-gui.c

    A shallow embedding of the challenge encoder ([get_num], [flicker_data]),
    the animation step ([do_flicker_drawing]) and the timer handling
    ([time_handler], [on_spin_delay_value_changed], [on_flicker_challenge_map])
    of [gnucash/import-export/aqb/gnc-flicker-gui.c].

    Conventions
    - a C [char] is an [ascii]; its integer value is [char_to_int] (the
      signed char of the x86 ABIs; [get_num] is proved insensitive to the
      signedness);
    - [uint]/[guint] values are [Z] with the wrap-around at 2^32 written out;
      [size_t] values are sizes of objects that exist and are plain [Z]/[nat];
    - [_Bool bitarray[255][5]] is a list of rows, each a list of booleans; the
      declared bounds are checked at every indexed access and an access
      outside them is the outcome [UB];
    - the drawing area is reduced to the colours of the five bars that
      [draw_bit] paints; the geometry fields of [struct Flickerdraw] do not
      influence any other field and are left out;
    - [malloc] and [g_timeout_add] are taken to succeed. *)

From Stdlib Require Import ZArith Lia Bool List Ascii String.
From stdpp Require Import base numbers list strings gmap.
Import ListNotations.

#[local] Open Scope Z_scope.

(** ** Outcomes of C code *)

(** [UB]: the code accessed memory outside an object.  [OutOfFuel] is only
    produced by the loop combinator when its iteration budget is too small;
    [flicker_data_fuel] shows it never is for the budget [flicker_data]
    passes. *)
Inductive outcome (A : Type) : Type :=
| Ok (a : A)
| UB
| OutOfFuel.

Arguments Ok {A} a.
Arguments UB {A}.
Arguments OutOfFuel {A}.

Definition bind {A B : Type} (m : outcome A) (k : A -> outcome B) : outcome B :=
  match m with
  | Ok a => k a
  | UB => UB
  | OutOfFuel => OutOfFuel
  end.

Notation "'do' x <- m ; k" := (bind m (fun x => k))
  (at level 10, x name, m at level 100, k at level 200).
Notation "'do' ' pat <- m ; k" := (bind m (fun x => match x with pat => k end))
  (at level 10, pat pattern, m at level 100, k at level 200).

(** ** Machine integers *)

Definition UINT_MODULUS : Z := 2 ^ 32.

(** Conversion of an integer to [uint]/[guint]. *)
Definition to_uint (z : Z) : Z := z mod UINT_MODULUS.

(** Conversion of an integer to [_Bool]. *)
Definition to_Bool (z : Z) : bool := negb (z =? 0).

(** Value of a [char] as an [int]. *)
Definition char_to_int (c : ascii) : Z :=
  let n := Z.of_N (N_of_ascii c) in
  if n <? 128 then n else n - 256.

Definition char_to_int_unsigned (c : ascii) : Z := Z.of_N (N_of_ascii c).

(** ** get_num *)

(** [static uint get_num(const char ch)], on the integer value of [ch]. *)
Definition get_num (ch : Z) : Z :=
  let num :=
    if (48 <=? ch) && (ch <=? 57) then ch - 48     (* '0' .. '9': ch - 0x30 *)
    else
      if (ch =? 65) || (ch =? 97) then 10          (* 'A' 'a' *)
      else if (ch =? 66) || (ch =? 98) then 11     (* 'B' 'b' *)
      else if (ch =? 67) || (ch =? 99) then 12     (* 'C' 'c' *)
      else if (ch =? 68) || (ch =? 100) then 13    (* 'D' 'd' *)
      else if (ch =? 69) || (ch =? 101) then 14    (* 'E' 'e' *)
      else if (ch =? 70) || (ch =? 102) then 15    (* 'F' 'f' *)
      else 0 in
  to_uint num.

(** The characters 0-9, A-F, a-f. *)
Definition is_hex (ch : Z) : bool :=
  ((48 <=? ch) && (ch <=? 57)) || ((65 <=? ch) && (ch <=? 70))
  || ((97 <=? ch) && (ch <=? 102)).

(** ** The bit table *)

Abbreviation Row := (list bool) (only parsing).
Abbreviation Table := (list (list bool)) (only parsing).

(** [static const _Bool bits[16][5]]. *)
Definition bits : Table :=
  let O := false in
  let I := true in
  [ [O; O; O; O; O]; [O; I; O; O; O]; [O; O; I; O; O]; [O; I; I; O; O];
    [O; O; O; I; O]; [O; I; O; I; O]; [O; O; I; I; O]; [O; I; I; I; O];
    [O; O; O; O; I]; [O; I; O; O; I]; [O; O; I; O; I]; [O; I; I; O; I];
    [O; O; O; I; I]; [O; I; O; I; I]; [O; O; I; I; I]; [O; I; I; I; I] ].

(** [bits[v]]: reading the row of index [v]. *)
Definition bits_row (v : Z) : outcome Row :=
  if (0 <=? v) && (v <? 16)
  then match bits !! Z.to_nat v with Some r => Ok r | None => UB end
  else UB.

(** The four data slots of a row, as the spec writes permuted(v). *)
Definition data_bits (r : Row) : list bool := drop 1 r.

(** ** bitarray *)

Definition BITARRAY_ROWS : Z := 255.
Definition ROW_BITS : nat := 5.

(** The type invariant of [_Bool bitarray[255][5]]. *)
Definition wf_bitarray (ba : Table) : Prop :=
  length ba = Z.to_nat BITARRAY_ROWS /\ Forall (fun r => length r = ROW_BITS) ba.

(** A static object starts zeroed. *)
Definition bitarray_init : Table :=
  replicate (Z.to_nat BITARRAY_ROWS) (replicate ROW_BITS false).

(** [memcpy(&bitarray[i], row, sizeof(row))]. *)
Definition store_row (ba : Table) (i : Z) (r : Row) : outcome Table :=
  if (0 <=? i) && (i <? BITARRAY_ROWS)
  then Ok (<[Z.to_nat i := r]> ba)
  else UB.

(** [bitarray[i][j] = b]. *)
Definition store_bit (ba : Table) (i : Z) (j : nat) (b : bool) : outcome Table :=
  if (0 <=? i) && (i <? BITARRAY_ROWS) && (j <? ROW_BITS)%nat
  then match ba !! Z.to_nat i with
       | Some r => Ok (<[Z.to_nat i := <[j := b]> r]> ba)
       | None => UB
       end
  else UB.

(** [bitarray[i][j]] as an rvalue. *)
Definition load_bit (ba : Table) (i : Z) (j : nat) : outcome bool :=
  if (0 <=? i) && (i <? BITARRAY_ROWS) && (j <? ROW_BITS)%nat
  then match ba !! Z.to_nat i with
       | Some r => match r !! j with Some b => Ok b | None => UB end
       | None => UB
       end
  else UB.

(** ** C strings and heap blocks *)

Definition NUL : ascii := "000"%char.

(** The object a [const char *] argument points to: the characters of the
    string followed by the terminator. *)
Definition c_string (s : string) : list ascii := list_ascii_of_string s ++ [NUL].

(** [strlen]: scans for the first NUL; leaving the object is [UB]. *)
Fixpoint strlen (buf : list ascii) : outcome nat :=
  match buf with
  | [] => UB
  | c :: rest =>
      if Ascii.eqb c NUL then Ok O
      else do n <- strlen rest; Ok (S n)
  end.

(** [malloc(len)]: a block of [len] bytes whose contents are indeterminate;
    [heap] stands for whatever the allocator left in it. *)
Definition malloc (heap : nat -> ascii) (len : nat) : list ascii :=
  heap <$> seq 0 len.

(** [memcpy(dst + off, src, n)]. *)
Definition memcpy (dst : list ascii) (off : nat) (src : list ascii) (n : nat)
  : outcome (list ascii) :=
  if ((off + n <=? length dst) && (n <=? length src))%nat
  then Ok (take off dst ++ take n src ++ drop (off + n) dst)
  else UB.

(** [code[i]]. *)
Definition load_char (code : list ascii) (i : Z) : outcome ascii :=
  if 0 <=? i
  then match code !! Z.to_nat i with Some c => Ok c | None => UB end
  else UB.

(** ** flicker_data *)

(** [const char pre[] = {'0', 'F', 'F', 'F'}]. *)
Definition pre : list ascii := ["0"; "F"; "F"; "F"]%char.

(** The test [val1 < 0x10 && val2 < 0x10]. *)
Definition nibble_guard (val1 val2 : Z) : bool := (val1 <? 16) && (val2 <? 16).

(** The two [memcpy] calls of the loop: [bits[val2]] goes to row [i] and
    [bits[val1]] to row [i+1]. *)
Definition store_pair (i : Z) (val1 val2 : Z) (ba : Table) : outcome Table :=
  do r2 <- bits_row val2;
  do ba1 <- store_row ba i r2;
  do r1 <- bits_row val1;
  store_row ba1 (i + 1) r1.

(** The body of the loop of [flicker_data] at index [i]. *)
Definition flicker_body (code : list ascii) (i : Z) (ba : Table) : outcome Table :=
  do c1 <- load_char code i;
  do c2 <- load_char code (i + 1);
  let val1 := get_num (char_to_int c1) in
  let val2 := get_num (char_to_int c2) in
  if nibble_guard val1 val2 then
    store_pair i val1 val2 ba
  else
    (* continue *)
    Ok ba.

(** [for (uint i = ...; i < len - 1; i += 2)], started at [i]. *)
Fixpoint flicker_loop (fuel : nat) (code : list ascii) (len : Z) (i : Z)
  (ba : Table) : outcome Table :=
  if i <? len - 1 then
    match fuel with
    | O => OutOfFuel
    | S fuel' =>
        do ba' <- flicker_body code i ba;
        flicker_loop fuel' code len (to_uint (i + 2)) ba'
    end
  else Ok ba.

(** [static char *flicker_data(const char *challenge)]: returns the block
    [code] and the new contents of the global [bitarray]. *)
Definition flicker_data (heap : nat -> ascii) (challenge : string) (ba : Table)
  : outcome (list ascii * Table) :=
  do n <- strlen (c_string challenge);
  let len := (length pre + n + 1)%nat in
  let code := malloc heap len in
  do code <- memcpy code 0 pre (length pre);
  do code <- memcpy code (length pre) (c_string challenge) n;
  do ba' <- flicker_loop len code (Z.of_nat len) 0 ba;
  Ok (code, ba').

(** ** The GLib main context: timeout sources *)

(** The active timeout sources, each with its id and its period in
    milliseconds, and the id the next source gets. *)
Record MainContext : Type := {
  sources : list (Z * Z);
  next_id : Z
}.

(** [g_timeout_add(interval, function, data)]: returns the id of the new
    source. *)
Definition g_timeout_add (ms : Z) (ctx : MainContext) : Z * MainContext :=
  (next_id ctx,
   {| sources := sources ctx ++ [(next_id ctx, ms)];
      next_id := next_id ctx + 1 |}).

(** [g_source_remove(tag)]. *)
Definition g_source_remove (tag : Z) (ctx : MainContext) : MainContext :=
  {| sources := filter (fun s => s.1 <> tag) (sources ctx);
     next_id := next_id ctx |}.

(** ** The state of the dialog *)

(** [struct Flickerdraw], without the geometry fields. *)
Record Flickerdraw : Type := {
  challenge : string;
  challenge_length : Z;
  delay : Z;
  halfbyteid : Z;
  clock : Z;
  interval : Z;
  change_interval : bool
}.

(** The globals [flickerdraw] and [bitarray], the main context, and whether
    a redraw of the flicker widget is queued ([gtk_widget_queue_draw]). *)
Record World : Type := {
  flickerdraw : Flickerdraw;
  bitarray : Table;
  main_context : MainContext;
  draw_queued : bool
}.

Definition set_flickerdraw (fd : Flickerdraw) (w : World) : World :=
  {| flickerdraw := fd; bitarray := bitarray w;
     main_context := main_context w; draw_queued := draw_queued w |}.

Definition set_bitarray (ba : Table) (w : World) : World :=
  {| flickerdraw := flickerdraw w; bitarray := ba;
     main_context := main_context w; draw_queued := draw_queued w |}.

Definition set_main_context (ctx : MainContext) (w : World) : World :=
  {| flickerdraw := flickerdraw w; bitarray := bitarray w;
     main_context := ctx; draw_queued := draw_queued w |}.

Definition set_draw_queued (q : bool) (w : World) : World :=
  {| flickerdraw := flickerdraw w; bitarray := bitarray w;
     main_context := main_context w; draw_queued := q |}.

Definition set_timer (tag : Z) (pending : bool) (fd : Flickerdraw) : Flickerdraw :=
  {| challenge := challenge fd; challenge_length := challenge_length fd;
     delay := delay fd; halfbyteid := halfbyteid fd; clock := clock fd;
     interval := tag; change_interval := pending |}.

Definition set_delay (ms : Z) (pending : bool) (fd : Flickerdraw) : Flickerdraw :=
  {| challenge := challenge fd; challenge_length := challenge_length fd;
     delay := ms; halfbyteid := halfbyteid fd; clock := clock fd;
     interval := interval fd; change_interval := pending |}.

Definition set_cursor (h c : Z) (fd : Flickerdraw) : Flickerdraw :=
  {| challenge := challenge fd; challenge_length := challenge_length fd;
     delay := delay fd; halfbyteid := h; clock := c;
     interval := interval fd; change_interval := change_interval fd |}.

Definition set_challenge_length (n : Z) (fd : Flickerdraw) : Flickerdraw :=
  {| challenge := challenge fd; challenge_length := n;
     delay := delay fd; halfbyteid := halfbyteid fd; clock := clock fd;
     interval := interval fd; change_interval := change_interval fd |}.

(** ** time_handler *)

(** [static gboolean time_handler(GtkWidget *widget)]. *)
Definition time_handler (w : World) : bool * World :=
  let fd := flickerdraw w in
  if change_interval fd then
    let ctx1 := g_source_remove (interval fd) (main_context w) in
    let '(tag, ctx2) := g_timeout_add (delay fd) ctx1 in
    (false, set_main_context ctx2 (set_flickerdraw (set_timer tag false fd) w))
  else
    (true, set_draw_queued true w).

(** [on_spin_delay_value_changed], [v] being what the spin button holds. *)
Definition on_spin_delay_value_changed (v : Z) (w : World) : World :=
  let fd := set_delay (to_uint v) true (flickerdraw w) in
  (time_handler (set_flickerdraw fd w)).2.

(** ** do_flicker_drawing *)

(** The [if (!flickerdraw.clock) ... else if (flickerdraw.clock) ...] that
    ends [do_flicker_drawing]. *)
Definition advance (fd : Flickerdraw) : Flickerdraw :=
  if clock fd =? 0 then
    let h' := to_uint (halfbyteid fd + 1) in
    set_cursor (if challenge_length fd <=? h' then 0 else h') 1 fd
  else if negb (clock fd =? 0) then
    set_cursor (halfbyteid fd) 0 fd
  else fd.

(** The drawing area as far as the flicker code goes: the colour of the
    five bars, white being [true]. *)
Abbreviation Bars := (list bool) (only parsing).

(** [cairo_set_source_rgb(cr, 0, 0, 0); cairo_paint(cr)]. *)
Definition all_black : Bars := replicate 5 false.

(** [draw_bit(cr, bit, i)]: bar [i] becomes white if [bit & 1], else black. *)
Definition draw_bit (bars : Bars) (bit : bool) (i : nat) : Bars :=
  <[i := bit]> bars.

(** [for (int i=1; i <= 4; i++) draw_bit(cr, bitarray[halfbyteid][i], i)],
    the values of [i] still to come being [todo]. *)
Fixpoint draw_data_bits (ba : Table) (h : Z) (todo : list nat) (bars : Bars)
  : outcome Bars :=
  match todo with
  | [] => Ok bars
  | i :: todo' =>
      do b <- load_bit ba h i;
      draw_data_bits ba h todo' (draw_bit bars b i)
  end.

(** [do_flicker_drawing]: the bars it paints and the state it leaves. *)
Definition do_flicker_drawing (w : World) : outcome (Bars * World) :=
  let fd := flickerdraw w in
  let h := halfbyteid fd in
  let bars := all_black in
  do ba <- store_bit (bitarray w) h 0 (to_Bool (clock fd));
  let bars := draw_bit bars (to_Bool (clock fd)) 0 in
  do bars <- draw_data_bits ba h [1; 2; 3; 4]%nat bars;
  Ok (bars, set_flickerdraw (advance fd) (set_bitarray ba w)).

(** ** Start of a session *)

Definition DELAY : Z := 50.

(** The part of [ini_flicker_gui] (with [do_flicker_load_state]) that sets
    the fields above; [stored_delay] is the value of the key "delay" of the
    state file when it has one. *)
Definition ini_flicker_gui (stored_delay : option Z) (pChallenge : string)
  (w : World) : World :=
  let fd := flickerdraw w in
  set_flickerdraw
    {| challenge := pChallenge;
       challenge_length := challenge_length fd;
       delay := match stored_delay with Some d => to_uint d | None => DELAY end;
       halfbyteid := 0;
       clock := 1;
       interval := interval fd;
       change_interval := change_interval fd |} w.

(** [on_flicker_challenge_map]; [heap] is the content of the block that
    [malloc] hands to [flicker_data].  The block of the first [g_malloc] is
    dropped by the next assignment and plays no part. *)
Definition on_flicker_challenge_map (heap : nat -> ascii) (w : World)
  : outcome World :=
  let fd := flickerdraw w in
  do ' (code, ba) <- flicker_data heap (challenge fd) (bitarray w);
  do n <- strlen code;
  let '(tag, ctx) := g_timeout_add (delay fd) (main_context w) in
  Ok (set_main_context ctx
        (set_bitarray ba
           (set_flickerdraw
              (set_timer tag (change_interval fd)
                 (set_challenge_length (to_uint (Z.of_nat n)) fd)) w))).

(** [on_flicker_challenge_destroy]. *)
Definition on_flicker_challenge_destroy (w : World) : World :=
  set_main_context
    (g_source_remove (interval (flickerdraw w)) (main_context w)) w.

(** ** One period of the timer *)

(** The timeout source [tag] fires: GLib calls [time_handler] and destroys
    the source when the handler returns FALSE. *)
Definition timeout_dispatch (tag : Z) (w : World) : World :=
  let '(again, w1) := time_handler w in
  if again then w1
  else set_main_context (g_source_remove tag (main_context w1)) w1.

(** GTK then processes a queued redraw by emitting "draw", which runs
    [on_flicker_challenge_draw], that is [do_flicker_drawing]. *)
Definition on_tick (w : World) : outcome (option (list bool) * World) :=
  let w1 := timeout_dispatch (interval (flickerdraw w)) w in
  if draw_queued w1 then
    do ' (frame, w2) <- do_flicker_drawing (set_draw_queued false w1);
    Ok (Some frame, w2)
  else Ok (None, w1).

(** [n] periods in a row, with the frames they painted. *)
Fixpoint run_ticks (n : nat) (w : World)
  : outcome (list (option (list bool)) * World) :=
  match n with
  | O => Ok ([], w)
  | S n' =>
      do ' (f, w1) <- on_tick w;
      do ' (fs, w2) <- run_ticks n' w1;
      Ok (f :: fs, w2)
  end.

(** The process image before [ini_flicker_gui] runs: zeroed statics, no
    timeout source. *)
Definition world_init : World :=
  {| flickerdraw :=
       {| challenge := ""; challenge_length := 0; delay := 0; halfbyteid := 0;
          clock := 0; interval := 0; change_interval := false |};
     bitarray := bitarray_init;
     main_context := {| sources := []; next_id := 1 |};
     draw_queued := false |}.

(** * Words of the specification *)

(** permuted(v): the row of the bit table for the nibble [v]. *)
Definition permuted (v : Z) : Row := nth (Z.to_nat v) bits [].

(** nibble(c). *)
Definition nibble (c : ascii) : Z := get_num (char_to_int c).

(** The characters of a C string: those before the first NUL. *)
Fixpoint c_chars_of (l : list ascii) : list ascii :=
  match l with
  | [] => []
  | c :: rest => if Ascii.eqb c NUL then [] else c :: c_chars_of rest
  end.

Definition c_chars (s : string) : list ascii := c_chars_of (list_ascii_of_string s).

(** The challenge with the synchronisation prefix in front. *)
Definition prefixed (challenge : string) : list ascii := pre ++ c_chars challenge.

(** What the pair loop is meant to produce from a character sequence: the
    rows of each pair, crossed. *)
Fixpoint swap_pairs (cs : list ascii) : list Row :=
  match cs with
  | c1 :: c2 :: rest => permuted (nibble c2) :: permuted (nibble c1) :: swap_pairs rest
  | _ => []
  end.

(** ** Further notions used in the statements *)

(** The block [flicker_data] returns. *)
Definition code_of (heap : nat -> ascii) (challenge : string) : list ascii :=
  prefixed challenge ++ [heap (length pre + length (c_chars challenge))%nat].

Definition heap_zero : nat -> ascii := fun _ => NUL.

(** A challenge of [n] copies of the character [c]. *)
Definition repeated (n : nat) (c : ascii) : string :=
  string_of_list_ascii (replicate n c).

(** A valid hex challenge: every character is one of 0-9, A-F, a-f. *)
Definition valid_hex (s : string) : Prop :=
  Forall (fun c => is_hex (char_to_int c) = true) (list_ascii_of_string s).

(** A check of the type invariant that computes. *)
Definition wf_bitarrayb (ba : Table) : bool :=
  (length ba =? Z.to_nat BITARRAY_ROWS)%nat
  && forallb (fun r => (length r =? ROW_BITS)%nat) ba.

(** The entry [r] with slot 0 replaced by the clock bit [c]. *)
Definition frame_of (r : Row) (c : bool) : list bool := <[0%nat := c]> r.

(** Cursor and clock after [k] frames of a table of [L] entries. *)
Definition cursor_at (L : Z) (k : nat) : Z := (Z.of_nat k / 2) mod L.
Definition clock_at (k : nat) : Z := if Nat.even k then 1 else 0.

(** The state of the animator before frame [k] of a run over the entries
    of [ba0], [L] of which are shown. *)
Definition at_phase (ba0 : Table) (L : Z) (k : nat) (w : World) : Prop :=
  change_interval (flickerdraw w) = false /\
  challenge_length (flickerdraw w) = L /\
  halfbyteid (flickerdraw w) = cursor_at L k /\
  clock (flickerdraw w) = clock_at k /\
  wf_bitarray (bitarray w) /\
  forall i, data_bits <$> bitarray w !! i = data_bits <$> ba0 !! i.

(** What the animator works on: cursor, clock, table length and table. *)
Definition animator_state (w : World) : Z * Z * Z * Table :=
  (halfbyteid (flickerdraw w), clock (flickerdraw w),
   challenge_length (flickerdraw w), bitarray w).

(** The state [time_handler] leaves when the flag was set. *)
Definition rescheduled (w : World) : World :=
  let fd := flickerdraw w in
  let ctx := g_source_remove (interval fd) (main_context w) in
  set_main_context (g_timeout_add (delay fd) ctx).2
    (set_flickerdraw (set_timer (next_id ctx) false fd) w).

(** The session of the challenge "1A" once the widget is mapped. *)
Definition session_1A : World :=
  match on_flicker_challenge_map heap_zero (ini_flicker_gui None "1A" world_init) with
  | Ok w => w
  | _ => world_init
  end.

(** The state in which [on_spin_delay_value_changed] calls [time_handler]:
    the new delay stored and the flag set. *)
Definition session_1A_pending : World :=
  set_flickerdraw (set_delay 100 true (flickerdraw session_1A)) session_1A.

(** ** Notions for the further properties *)

(** The nibble a row shows, slot 1 being the least significant bit. *)
Definition row_nibble (r : Row) : Z :=
  match r with
  | [_; b1; b2; b3; b4] =>
      Z.b2z b1 + 2 * Z.b2z b2 + 4 * Z.b2z b3 + 8 * Z.b2z b4
  | _ => 0
  end.

(** The number of table rows the pair loop writes for a challenge of [n]
    characters: the [n + 4] characters rounded up to whole pairs. *)
Definition rows_written (n : nat) : nat := (2 * ((n + 5) / 2))%nat.

(** The cursor is inside a table that fits in [bitarray]. *)
Definition cursor_in_range (w : World) : Prop :=
  wf_bitarray (bitarray w) /\
  0 <= halfbyteid (flickerdraw w) < challenge_length (flickerdraw w) /\
  challenge_length (flickerdraw w) <= BITARRAY_ROWS.

(** What can happen to the mapped dialog: its timer fires, GTK asks for a
    redraw of the flicker area on its own (the area was exposed or resized),
    or the user changes the delay. *)
Inductive event : Type :=
| Tick
| Expose
| SetDelay (v : Z).

Definition handle (e : event) (w : World) : outcome World :=
  match e with
  | Tick => do ' (_, w') <- on_tick w; Ok w'
  | Expose => do ' (_, w') <- do_flicker_drawing (set_draw_queued false w); Ok w'
  | SetDelay v => Ok (on_spin_delay_value_changed v w)
  end.

Fixpoint handle_all (es : list event) (w : World) : outcome World :=
  match es with
  | [] => Ok w
  | e :: es' => do w' <- handle e w; handle_all es' w'
  end.

(** The dialog owns exactly one timeout source, the last one of the main
    context: its id is [flickerdraw.interval], its period is
    [flickerdraw.delay], and the sources [others] were there before. *)
Definition own_timer (others : list (Z * Z)) (w : World) : Prop :=
  change_interval (flickerdraw w) = false /\
  sources (main_context w)
    = others ++ [(interval (flickerdraw w), delay (flickerdraw w))] /\
  Forall (fun s => s.1 < interval (flickerdraw w)) others /\
  interval (flickerdraw w) < next_id (main_context w).

(** The delay in force after the events [es], [d] being the one before. *)
Definition delay_after (es : list event) (d : Z) : Z :=
  fold_left (fun d e => match e with SetDelay v => to_uint v | _ => d end) es d.

(** The other index of the pair that index [i] belongs to. *)
Definition partner (i : nat) : nat := if Nat.even i then S i else pred i.

(** * The rest of the dialog: bar layout and saved settings *)

Module Gui.

(** Conversion of an integer to [int]/[gint]. *)
Definition to_int (z : Z) : Z := (z + 2 ^ 31) mod 2 ^ 32 - 2 ^ 31.

Definition BARWIDTH : Z := 44.
Definition BARHEIGHT : Z := 200.
Definition MARGIN : Z := 12.

(** The geometry fields of [struct Flickerdraw], all [guint]. *)
Record Layout : Type := {
  margin : Z;
  barwidth : Z;
  barheight : Z;
  x_barpos : Z;
  y_barpos : Z;
  x_drawpos : Z;
  height : Z;
  width : Z
}.

Definition set_barwidth (v : Z) (l : Layout) : Layout :=
  {| margin := margin l; barwidth := v; barheight := barheight l;
     x_barpos := x_barpos l; y_barpos := y_barpos l; x_drawpos := x_drawpos l;
     height := height l; width := width l |}.

Definition set_x_barpos (v : Z) (l : Layout) : Layout :=
  {| margin := margin l; barwidth := barwidth l; barheight := barheight l;
     x_barpos := v; y_barpos := y_barpos l; x_drawpos := x_drawpos l;
     height := height l; width := width l |}.

Definition set_x_drawpos (v : Z) (l : Layout) : Layout :=
  {| margin := margin l; barwidth := barwidth l; barheight := barheight l;
     x_barpos := x_barpos l; y_barpos := y_barpos l; x_drawpos := v;
     height := height l; width := width l |}.

Definition set_width (v : Z) (l : Layout) : Layout :=
  {| margin := margin l; barwidth := barwidth l; barheight := barheight l;
     x_barpos := x_barpos l; y_barpos := y_barpos l; x_drawpos := x_drawpos l;
     height := height l; width := v |}.

Definition set_height (v : Z) (l : Layout) : Layout :=
  {| margin := margin l; barwidth := barwidth l; barheight := barheight l;
     x_barpos := x_barpos l; y_barpos := y_barpos l; x_drawpos := x_drawpos l;
     height := v; width := width l |}.

(** ** The state file *)

(** A [GKeyFile] as far as this dialog uses it: integer values under a
    group and a key.  [g_key_file_get_integer] gives 0 (and reports an
    error) for a value that is no [gint]. *)
Abbreviation KeyFile := (gmap (string * string) Z) (only parsing).

Definition GNC_STATE_SECTION : string := "Flicker".
Definition STATE_KEY_BARWIDTH : string := "barwidth".
Definition STATE_KEY_DELAY : string := "delay".

Definition g_key_file_has_key (kf : KeyFile) (group key : string) : bool :=
  match kf !! (group, key) with Some _ => true | None => false end.

Definition g_key_file_get_integer (kf : KeyFile) (group key : string) : Z :=
  match kf !! (group, key) with
  | Some v => if (- 2 ^ 31 <=? v) && (v <? 2 ^ 31) then v else 0
  | None => 0
  end.

Definition g_key_file_set_integer (kf : KeyFile) (group key : string) (v : Z)
  : KeyFile := <[(group, key) := v]> kf.

Definition g_key_file_remove_key (kf : KeyFile) (group key : string) : KeyFile :=
  delete (group, key) kf.

(** [do_flicker_load_state], without the window size: the bar width goes
    to the layout, the delay to [flickerdraw.delay]. *)
Definition do_flicker_load_state (state_file : KeyFile)
  (l : Layout) (fd : Flickerdraw) : Layout * Flickerdraw :=
  let l' :=
    if g_key_file_has_key state_file GNC_STATE_SECTION STATE_KEY_BARWIDTH
    then set_barwidth
           (to_uint (g_key_file_get_integer state_file GNC_STATE_SECTION
                       STATE_KEY_BARWIDTH)) l
    else set_barwidth BARWIDTH l in
  let fd' :=
    if g_key_file_has_key state_file GNC_STATE_SECTION STATE_KEY_DELAY
    then set_delay
           (to_uint (g_key_file_get_integer state_file GNC_STATE_SECTION
                       STATE_KEY_DELAY)) (change_interval fd) fd
    else set_delay DELAY (change_interval fd) fd in
  (l', fd').

(** [do_flicker_store_state], without the window size. *)
Definition do_flicker_store_state (l : Layout) (fd : Flickerdraw)
  (state_file : KeyFile) : KeyFile :=
  let state_file :=
    if negb (barwidth l =? BARWIDTH) then
      g_key_file_set_integer state_file GNC_STATE_SECTION STATE_KEY_BARWIDTH
        (to_int (barwidth l))
    else if g_key_file_has_key state_file GNC_STATE_SECTION STATE_KEY_BARWIDTH
    then g_key_file_remove_key state_file GNC_STATE_SECTION STATE_KEY_BARWIDTH
    else state_file in
  if negb (delay fd =? DELAY) then
    g_key_file_set_integer state_file GNC_STATE_SECTION STATE_KEY_DELAY
      (to_int (delay fd))
  else if g_key_file_has_key state_file GNC_STATE_SECTION STATE_KEY_DELAY
  then g_key_file_remove_key state_file GNC_STATE_SECTION STATE_KEY_DELAY
  else state_file.

(** [on_dialog_destroy]. *)
Definition on_dialog_destroy (l : Layout) (fd : Flickerdraw)
  (state_file : KeyFile) : KeyFile :=
  do_flicker_store_state l fd state_file.

(** ** Painting *)

(** A filled rectangle: [cairo_rectangle(cr, x, y, width, height)] in white
    or black. *)
Record Rect : Type := {
  rect_x : Z;
  rect_y : Z;
  rect_width : Z;
  rect_height : Z;
  rect_white : bool
}.

(** The start position of the first bar:
    [(width - 4 * margin - 5 * barwidth) / 2] in [guint] arithmetic. *)
Definition first_bar_position (l : Layout) : Z :=
  to_uint
    (to_uint (to_uint (width l - to_uint (4 * margin l))
              - to_uint (5 * barwidth l)) / 2).

(** [draw_bit(cr, bit, i)]: sets [x_barpos] and fills the bar. *)
Definition draw_bit (l : Layout) (bit : bool) (i : Z) : Rect * Layout :=
  let x :=
    to_uint (to_uint (x_drawpos l + to_uint (i * margin l))
             + to_uint (i * barwidth l)) in
  let l' := set_x_barpos x l in
  ({| rect_x := x_barpos l'; rect_y := y_barpos l';
      rect_width := barwidth l'; rect_height := barheight l';
      rect_white := bit |}, l').

(** The loop [for (int i=1; i <= 4; i++)] of [do_flicker_drawing]. *)
Fixpoint draw_data_rects (ba : Table) (h : Z) (todo : list nat) (l : Layout)
  : outcome (list Rect * Layout) :=
  match todo with
  | [] => Ok ([], l)
  | i :: todo' =>
      do b <- load_bit ba h i;
      let '(r, l1) := draw_bit l b (Z.of_nat i) in
      do ' (rs, l2) <- draw_data_rects ba h todo' l1;
      Ok (r :: rs, l2)
  end.

(** [do_flicker_drawing] with its geometry; [allocated_width] is what
    [gtk_widget_get_allocated_width] returns.  The rectangles are painted on
    a black ground, in this order. *)
Definition do_flicker_drawing (allocated_width : Z) (l : Layout) (w : World)
  : outcome (list Rect * Layout * World) :=
  let fd := flickerdraw w in
  let h := halfbyteid fd in
  let l := set_width (to_uint allocated_width) l in
  let l := set_x_drawpos (first_bar_position l) l in
  do ba <- store_bit (bitarray w) h 0 (to_Bool (clock fd));
  let '(r0, l) := draw_bit l (to_Bool (clock fd)) 0 in
  do ' (rs, l) <- draw_data_rects ba h [1; 2; 3; 4]%nat l;
  Ok (r0 :: rs, l, set_flickerdraw (advance fd) (set_bitarray ba w)).

(** A filled triangle, by its three corners in the order of the path. *)
Record Triangle : Type := {
  tip : Z * Z;
  corner_b : Z * Z;
  corner_c : Z * Z
}.

(** [do_marker_drawing]: the left and the right triangle, on black. *)
Definition do_marker_drawing (l : Layout) : Triangle * Triangle :=
  let pos1 := to_uint (x_drawpos l + barwidth l / 2) in
  let pos2 :=
    to_uint (to_uint (to_uint (x_drawpos l + to_uint (4 * margin l))
                      + to_uint (4 * barwidth l))
             + barwidth l / 2) in
  ({| tip := (pos1, 20); corner_b := (to_uint (pos1 + 10), 2);
      corner_c := (to_uint (pos1 - 10), 2) |},
   {| tip := (pos2, 20); corner_b := (to_uint (pos2 + 10), 2);
      corner_c := (to_uint (pos2 - 10), 2) |}).

(** [on_spin_barwidth_value_changed], [v] being what the spin button holds;
    it then queues a redraw of the marker area. *)
Definition on_spin_barwidth_value_changed (v : Z) (l : Layout) : Layout :=
  let l := set_barwidth (to_uint v) l in
  set_x_drawpos (first_bar_position l) l.

(** The geometry set by [ini_flicker_gui], after [do_flicker_load_state]. *)
Definition ini_flicker_gui (state_file : KeyFile) (pChallenge : string)
  (l : Layout) (fd : Flickerdraw) : Layout * Flickerdraw :=
  let '(l, fd) := do_flicker_load_state state_file l fd in
  ({| margin := MARGIN; barwidth := barwidth l; barheight := BARHEIGHT;
      x_barpos := x_barpos l; y_barpos := 20; x_drawpos := x_drawpos l;
      height := height l; width := width l |},
   {| challenge := pChallenge; challenge_length := challenge_length fd;
      delay := delay fd; halfbyteid := 0; clock := 1;
      interval := interval fd; change_interval := change_interval fd |}).

(** The height [on_flicker_challenge_map] asks for. *)
Definition on_flicker_challenge_map_height (l : Layout) : Layout :=
  set_height (to_uint (barheight l + to_uint (2 * y_barpos l))) l.

End Gui.

(** The geometry fields before [ini_flicker_gui] runs: a zeroed static. *)
Definition layout_zero : Gui.Layout :=
  {| Gui.margin := 0; Gui.barwidth := 0; Gui.barheight := 0; Gui.x_barpos := 0;
     Gui.y_barpos := 0; Gui.x_drawpos := 0; Gui.height := 0; Gui.width := 0 |}.

(** The geometry of a session with no stored settings, once the drawing
    area is mapped. *)
Definition layout_1A : Gui.Layout :=
  Gui.on_flicker_challenge_map_height
    (Gui.ini_flicker_gui ∅ "1A" layout_zero (flickerdraw world_init)).1.

(** The first frame of the session and the state after it. *)
Definition frame_1A : list bool * World :=
  match do_flicker_drawing session_1A with
  | Ok p => p
  | _ => ([], world_init)
  end.

Ltac split_tests :=
  repeat match goal with
    | |- context [if ?b then _ else _] => destruct b eqn:?
    end;
  repeat match goal with
    | H : (_ && _) = true |- _ => apply andb_true_iff in H; destruct H
    | H : (_ && _) = false |- _ => apply andb_false_iff in H
    | H : (_ || _) = true |- _ => apply orb_true_iff in H
    | H : (_ || _) = false |- _ => apply orb_false_iff in H; destruct H
    end.

(** * Proofs *)

(** ** get_num *)

Lemma to_uint_small z : 0 <= z < UINT_MODULUS -> to_uint z = z.
Proof. intros H. unfold to_uint. now apply Z.mod_small. Qed.

Lemma get_num_range ch : 0 <= get_num ch <= 15.
Proof.
  unfold get_num.
  assert (forall z, 0 <= z <= 15 -> 0 <= to_uint z <= 15) as Hs.
  { intros z Hz. rewrite to_uint_small; [lia | unfold UINT_MODULUS; lia]. }
  split_tests; apply Hs; lia.
Qed.

Lemma get_num_not_hex ch : is_hex ch = false -> get_num ch = 0.
Proof.
  unfold is_hex, get_num. intros H.
  repeat (apply orb_false_iff in H; destruct H as [H ?]).
  split_tests; try reflexivity; exfalso; lia.
Qed.

Lemma get_num_guard c1 c2 : nibble_guard (get_num c1) (get_num c2) = true.
Proof.
  unfold nibble_guard.
  pose proof (get_num_range c1). pose proof (get_num_range c2).
  apply andb_true_iff. split; apply Z.ltb_lt; lia.
Qed.

Lemma get_num_upper ch : 65 <= ch <= 70 -> get_num ch = ch - 55.
Proof.
  intros H. unfold get_num.
  split_tests; rewrite to_uint_small; unfold UINT_MODULUS; lia.
Qed.

Lemma get_num_lower ch : 97 <= ch <= 102 -> get_num ch = ch - 87.
Proof.
  intros H. unfold get_num.
  split_tests; rewrite to_uint_small; unfold UINT_MODULUS; lia.
Qed.

Lemma get_num_digit ch : 48 <= ch <= 57 -> get_num ch = ch - 48.
Proof.
  intros H. unfold get_num.
  split_tests; rewrite to_uint_small; unfold UINT_MODULUS; lia.
Qed.

Lemma is_hex_outside ch : ch < 48 \/ 102 < ch -> is_hex ch = false.
Proof.
  intros H. unfold is_hex.
  destruct (Z.leb_spec 48 ch), (Z.leb_spec ch 57), (Z.leb_spec 65 ch),
    (Z.leb_spec ch 70), (Z.leb_spec 97 ch), (Z.leb_spec ch 102);
    simpl; try reflexivity; lia.
Qed.

(** The value does not depend on whether [char] is signed. *)
Lemma get_num_signedness c :
  get_num (char_to_int c) = get_num (char_to_int_unsigned c).
Proof.
  unfold char_to_int, char_to_int_unsigned.
  set (n := Z.of_N (N_of_ascii c)).
  assert (0 <= n < 256) by (unfold n; pose proof (N_ascii_bounded c); lia).
  destruct (n <? 128) eqn:E; [reflexivity|].
  apply Z.ltb_ge in E.
  rewrite !get_num_not_hex; [reflexivity | apply is_hex_outside; lia ..].
Qed.

(** ** The bit table *)

Lemma bits_row_permuted v : 0 <= v <= 15 -> bits_row v = Ok (permuted v).
Proof.
  intros H. unfold bits_row, permuted.
  assert (v = 0 \/ v = 1 \/ v = 2 \/ v = 3 \/ v = 4 \/ v = 5 \/ v = 6 \/ v = 7 \/
          v = 8 \/ v = 9 \/ v = 10 \/ v = 11 \/ v = 12 \/ v = 13 \/ v = 14 \/ v = 15)
    as Hv by lia.
  repeat (destruct Hv as [-> | Hv]; [reflexivity|]). subst v. reflexivity.
Qed.

Lemma permuted_shape v :
  0 <= v <= 15 ->
  length (permuted v) = ROW_BITS /\ permuted v !! 0%nat = Some false /\
  forall j : nat, (1 <= j <= 4)%nat ->
    permuted v !! j = Some (Z.testbit v (Z.of_nat j - 1)).
Proof.
  intros H.
  assert (v = 0 \/ v = 1 \/ v = 2 \/ v = 3 \/ v = 4 \/ v = 5 \/ v = 6 \/ v = 7 \/
          v = 8 \/ v = 9 \/ v = 10 \/ v = 11 \/ v = 12 \/ v = 13 \/ v = 14 \/ v = 15)
    as Hv by lia.
  assert (forall j : nat, (1 <= j <= 4)%nat -> j = 1%nat \/ j = 2%nat \/ j = 3%nat \/ j = 4%nat)
    as Hj by lia.
  repeat (destruct Hv as [-> | Hv];
          [ repeat split; try reflexivity;
            intros j Hr; destruct (Hj j Hr) as [-> | [-> | [-> | ->]]]; reflexivity |]).
  subst v. repeat split; try reflexivity.
  intros j Hr; destruct (Hj j Hr) as [-> | [-> | [-> | ->]]]; reflexivity.
Qed.

Lemma permuted_length c : length (permuted (nibble c)) = ROW_BITS.
Proof. apply permuted_shape, get_num_range. Qed.

(** ** C strings *)

Lemma strlen_terminated l : strlen (l ++ [NUL]) = Ok (length (c_chars_of l)).
Proof.
  induction l as [|c l IH]; simpl; [reflexivity|].
  destruct (Ascii.eqb c NUL); [reflexivity|].
  rewrite IH. reflexivity.
Qed.

Lemma c_chars_of_take l : take (length (c_chars_of l)) (l ++ [NUL]) = c_chars_of l.
Proof.
  induction l as [|c l IH]; simpl; [reflexivity|].
  destruct (Ascii.eqb c NUL); simpl; [reflexivity|].
  now rewrite IH.
Qed.

Lemma c_chars_of_length l : (length (c_chars_of l) <= length l)%nat.
Proof.
  induction l as [|c l IH]; simpl; [lia|].
  destruct (Ascii.eqb c NUL); simpl; lia.
Qed.

Lemma c_chars_of_no_nul l : Forall (fun c => c <> NUL) l -> c_chars_of l = l.
Proof.
  induction 1 as [|c l Hc _ IH]; simpl; [reflexivity|].
  destruct (Ascii.eqb_spec c NUL); [contradiction|]. now rewrite IH.
Qed.

Lemma strlen_c_string s : strlen (c_string s) = Ok (length (c_chars s)).
Proof. apply strlen_terminated. Qed.

(** A block that holds a NUL-free text and then a NUL. *)
Lemma strlen_text l rest :
  Forall (fun c => c <> NUL) l -> strlen (l ++ NUL :: rest) = Ok (length l).
Proof.
  induction 1 as [|c l Hc _ IH]; simpl; [reflexivity|].
  destruct (Ascii.eqb_spec c NUL); [contradiction|]. now rewrite IH.
Qed.

(** A block without any NUL: the scan leaves it. *)
Lemma strlen_overrun l : Forall (fun c => c <> NUL) l -> strlen l = UB.
Proof.
  induction 1 as [|c l Hc _ IH]; simpl; [reflexivity|].
  destruct (Ascii.eqb_spec c NUL); [contradiction|]. now rewrite IH.
Qed.

Lemma c_chars_of_spec l : Forall (fun c => c <> NUL) (c_chars_of l).
Proof.
  induction l as [|c l IH]; simpl; [constructor|].
  destruct (Ascii.eqb_spec c NUL); constructor; assumption.
Qed.

(** ** The block built by flicker_data *)

Lemma memcpy_ok dst off src n :
  (off + n <= length dst)%nat -> (n <= length src)%nat ->
  memcpy dst off src n = Ok (take off dst ++ take n src ++ drop (off + n) dst).
Proof.
  intros H1 H2. unfold memcpy.
  apply Nat.leb_le in H1, H2. rewrite H1, H2. reflexivity.
Qed.

(** After the two [memcpy] calls the block holds the prefix, the challenge
    and, in its last byte, what [malloc] left there. *)
Lemma code_block heap (s : string) :
  let n := length (c_chars s) in
  let len := (length pre + n + 1)%nat in
  (do code <- memcpy (malloc heap len) 0 pre (length pre);
   memcpy code (length pre) (c_string s) n)
  = Ok (prefixed s ++ [heap (length pre + n)%nat]).
Proof.
  intros n len.
  assert (length (malloc heap len) = len) as Hlen
    by (unfold malloc; now rewrite length_fmap, length_seq).
  assert (n <= length (c_string s))%nat as Hn.
  { unfold c_string. rewrite length_app. unfold n, c_chars.
    pose proof (c_chars_of_length (list_ascii_of_string s)). lia. }
  rewrite memcpy_ok by (rewrite ?Hlen; unfold len; lia).
  cbn [bind]. rewrite take_0, firstn_all. cbn [app].
  rewrite memcpy_ok
    by (rewrite ?length_app, ?length_drop, ?Hlen; unfold len; lia).
  f_equal. rewrite take_app_length. unfold prefixed. rewrite <- app_assoc.
  f_equal. f_equal.
  - unfold n, c_chars, c_string. apply c_chars_of_take.
  - rewrite drop_app_ge by lia. rewrite drop_drop.
    replace (0 + length pre + (length pre + n - length pre))%nat
      with (length pre + n)%nat by lia.
    unfold malloc. rewrite <- fmap_drop, drop_seq.
    replace (len - (length pre + n))%nat with 1%nat by (unfold len; lia).
    reflexivity.
Qed.

(** ** The pair loop *)

Lemma list_pair_ind {A} (P : list A -> Prop) :
  P [] -> (forall a, P [a]) -> (forall a b l, P l -> P (a :: b :: l)) ->
  forall l, P l.
Proof.
  intros H0 H1 H2.
  assert (forall l, P l /\ forall a, P (a :: l)) as H.
  { induction l as [|b l [IH1 IH2]]; split; auto. }
  intros l. apply H.
Qed.

Lemma swap_pairs_length cs : (length (swap_pairs cs) <= length cs)%nat.
Proof. induction cs using list_pair_ind; simpl; lia. Qed.

Lemma swap_pairs_length_even cs :
  Nat.Even (length cs) -> length (swap_pairs cs) = length cs.
Proof.
  induction cs as [|a|a b l IH] using list_pair_ind; simpl; intros H.
  - reflexivity.
  - destruct H as [k Hk]. lia.
  - rewrite IH; [reflexivity|]. destruct H as [k Hk]. exists (k - 1)%nat. lia.
Qed.

Lemma swap_pairs_length_odd cs :
  Nat.Odd (length cs) -> S (length (swap_pairs cs)) = length cs.
Proof.
  induction cs as [|a|a b l IH] using list_pair_ind; simpl; intros H.
  - destruct H as [k Hk]. lia.
  - reflexivity.
  - rewrite <- IH; [reflexivity|]. destruct H as [k Hk]. exists (k - 1)%nat. lia.
Qed.

(** The rows of a full pair. *)
Lemma swap_pairs_lookup cs (p : nat) c1 c2 :
  cs !! (2 * p)%nat = Some c1 -> cs !! (2 * p + 1)%nat = Some c2 ->
  swap_pairs cs !! (2 * p)%nat = Some (permuted (nibble c2)) /\
  swap_pairs cs !! (2 * p + 1)%nat = Some (permuted (nibble c1)).
Proof.
  revert cs. induction p as [|p IH]; intros cs H1 H2.
  - destruct cs as [|a [|b l]]; simpl in *; try discriminate.
    inversion H1; inversion H2; subst. split; reflexivity.
  - replace (2 * S p)%nat with (S (S (2 * p))) in * by lia.
    destruct cs as [|a [|b l]]; simpl in *; try discriminate.
    apply IH; assumption.
Qed.

Lemma insert_pair {A} (l : list A) (i : nat) (x y : A) :
  (S i < length l)%nat ->
  <[S i := y]> (<[i := x]> l) = take i l ++ x :: y :: drop (S (S i)) l.
Proof.
  intros H.
  rewrite (insert_take_drop l i x) by lia.
  replace (S i) with (length (take i l) + 1)%nat at 1
    by (rewrite length_take; lia).
  rewrite insert_app_r. f_equal.
  destruct (drop (S i) l) as [|z t] eqn:E.
  - apply (f_equal length) in E. rewrite length_drop in E. simpl in E. lia.
  - simpl. f_equal. f_equal.
    replace (S (S i)) with (S i + 1)%nat by lia.
    rewrite <- drop_drop, E. reflexivity.
Qed.

Lemma load_char_lookup code (i : nat) c :
  code !! i = Some c -> load_char code (Z.of_nat i) = Ok c.
Proof.
  intros H. unfold load_char.
  replace (0 <=? Z.of_nat i) with true by (symmetry; apply Z.leb_le; lia).
  now rewrite Nat2Z.id, H.
Qed.

Lemma store_row_ok ba (i : nat) r :
  (i < Z.to_nat BITARRAY_ROWS)%nat ->
  store_row ba (Z.of_nat i) r = Ok (<[i := r]> ba).
Proof.
  intros H. unfold store_row.
  replace ((0 <=? Z.of_nat i) && (Z.of_nat i <? BITARRAY_ROWS)) with true.
  - now rewrite Nat2Z.id.
  - symmetry. apply andb_true_iff. split; [apply Z.leb_le | apply Z.ltb_lt]; lia.
Qed.

Lemma store_row_overflow ba i r : BITARRAY_ROWS <= i -> store_row ba i r = UB.
Proof.
  intros H. unfold store_row.
  replace (i <? BITARRAY_ROWS) with false by (symmetry; apply Z.ltb_ge; lia).
  now rewrite andb_false_r.
Qed.

(** One iteration on a pair that lies inside the table. *)
Lemma flicker_body_pair code (i : nat) ba c1 c2 :
  code !! i = Some c1 -> code !! S i = Some c2 ->
  (S i < length ba)%nat -> length ba = Z.to_nat BITARRAY_ROWS ->
  flicker_body code (Z.of_nat i) ba
  = Ok (take i ba ++ permuted (nibble c2) :: permuted (nibble c1)
          :: drop (S (S i)) ba).
Proof.
  intros H1 H2 Hi Hlen. unfold flicker_body.
  rewrite (load_char_lookup _ _ _ H1). cbn [bind].
  replace (Z.of_nat i + 1) with (Z.of_nat (S i)) by lia.
  rewrite (load_char_lookup _ _ _ H2). cbn [bind].
  rewrite get_num_guard. unfold store_pair.
  rewrite !bits_row_permuted by apply get_num_range. cbn [bind].
  rewrite store_row_ok by lia. cbn [bind].
  replace (Z.of_nat i + 1) with (Z.of_nat (S i)) by lia.
  rewrite store_row_ok by lia.
  f_equal. apply insert_pair. lia.
Qed.

(** The loop, started at [i], rewrites the rows from [i] on with the crossed
    rows of the remaining pairs and leaves every other row alone. *)
Lemma flicker_loop_spec cs :
  forall fuel code (i : nat) ba,
    drop i code = cs -> (length cs <= fuel)%nat ->
    (i + length (swap_pairs cs) <= Z.to_nat BITARRAY_ROWS)%nat ->
    length ba = Z.to_nat BITARRAY_ROWS ->
    flicker_loop fuel code (Z.of_nat (length code)) (Z.of_nat i) ba
    = Ok (take i ba ++ swap_pairs cs
            ++ drop (i + length (swap_pairs cs)) ba).
Proof.
  induction cs as [|a|a b l IH] using list_pair_ind;
    intros fuel code i ba Hd Hf Hi Hlen;
    pose proof (f_equal length Hd) as Hl; rewrite length_drop in Hl;
    simpl in Hl.
  - replace (flicker_loop fuel code (Z.of_nat (length code)) (Z.of_nat i) ba)
      with (Ok ba).
    + cbn [swap_pairs length app]. rewrite Nat.add_0_r. now rewrite take_drop.
    + destruct fuel; cbn [flicker_loop];
        (replace (Z.of_nat i <? Z.of_nat (length code) - 1) with false
          by (symmetry; apply Z.ltb_ge; lia)); reflexivity.
  - replace (flicker_loop fuel code (Z.of_nat (length code)) (Z.of_nat i) ba)
      with (Ok ba).
    + cbn [swap_pairs length app]. rewrite Nat.add_0_r. now rewrite take_drop.
    + destruct fuel; cbn [flicker_loop];
        (replace (Z.of_nat i <? Z.of_nat (length code) - 1) with false
          by (symmetry; apply Z.ltb_ge; lia)); reflexivity.
  - cbn [swap_pairs length] in Hi, Hf. destruct fuel as [|fuel]; [lia|].
    cbn [flicker_loop].
    replace (Z.of_nat i <? Z.of_nat (length code) - 1) with true
      by (symmetry; apply Z.ltb_lt; lia).
    assert (code !! i = Some a) as Ha.
    { rewrite <- (Nat.add_0_r i), <- lookup_drop, Hd. reflexivity. }
    assert (code !! S i = Some b) as Hb.
    { replace (S i) with (i + 1)%nat by lia. rewrite <- lookup_drop, Hd.
      reflexivity. }
    rewrite (flicker_body_pair _ _ _ _ _ Ha Hb); [|lia..]. cbn [bind].
    assert (Z.to_nat BITARRAY_ROWS = 255%nat) as HR by reflexivity.
    rewrite to_uint_small by (unfold UINT_MODULUS; lia).
    replace (Z.of_nat i + 2) with (Z.of_nat (S (S i))) by lia.
    set (ba1 := take i ba ++ _).
    assert (length ba1 = Z.to_nat BITARRAY_ROWS) as Hlen1.
    { unfold ba1. rewrite length_app, length_take. simpl.
      rewrite length_drop. lia. }
    rewrite (IH fuel code (S (S i)) ba1); try lia.
    + f_equal. unfold ba1.
      assert (length (take i ba) = i) as Hti by (rewrite length_take; lia).
      rewrite take_app_ge by lia. rewrite Hti.
      replace (S (S i) - i)%nat with 2%nat by lia. cbn [take].
      rewrite take_0, <- app_assoc. f_equal. simpl. f_equal. f_equal. f_equal.
      rewrite drop_app_ge by lia. rewrite Hti. 
      replace (S (S (i + length (swap_pairs l))) - i)%nat
        with (2 + length (swap_pairs l))%nat by lia.
      cbn [drop Nat.add]. rewrite drop_drop. f_equal. lia.
    + replace (S (S i)) with (i + 2)%nat by lia.
      rewrite <- drop_drop, Hd. reflexivity.
Qed.

(** The loop leaves the table when a pair reaches past its last row. *)
Lemma flicker_loop_overflow cs :
  forall fuel code (i : nat) ba,
    drop i code = cs -> (length cs <= fuel)%nat ->
    (Z.to_nat BITARRAY_ROWS < i + length (swap_pairs cs))%nat ->
    (i <= Z.to_nat BITARRAY_ROWS)%nat ->
    flicker_loop fuel code (Z.of_nat (length code)) (Z.of_nat i) ba = UB.
Proof.
  assert (Z.to_nat BITARRAY_ROWS = 255%nat) as HR by reflexivity.
  induction cs as [|a|a b l IH] using list_pair_ind;
    intros fuel code i ba Hd Hf Hi Hle;
    pose proof (f_equal length Hd) as Hl; rewrite length_drop in Hl;
    cbn [swap_pairs length] in *; try lia.
  destruct fuel as [|fuel]; [lia|]. cbn [flicker_loop].
  replace (Z.of_nat i <? Z.of_nat (length code) - 1) with true
    by (symmetry; apply Z.ltb_lt; lia).
  assert (code !! i = Some a) as Ha.
  { rewrite <- (Nat.add_0_r i), <- lookup_drop, Hd. reflexivity. }
  assert (code !! S i = Some b) as Hb.
  { replace (S i) with (i + 1)%nat by lia. rewrite <- lookup_drop, Hd.
    reflexivity. }
  unfold flicker_body.
  rewrite (load_char_lookup _ _ _ Ha). cbn [bind].
  replace (Z.of_nat i + 1) with (Z.of_nat (S i)) by lia.
  rewrite (load_char_lookup _ _ _ Hb). cbn [bind].
  rewrite get_num_guard. unfold store_pair.
  rewrite !bits_row_permuted by apply get_num_range. cbn [bind].
  destruct (decide (i = 255%nat)) as [->|Hne].
  { rewrite store_row_overflow by (unfold BITARRAY_ROWS; lia). reflexivity. }
  rewrite store_row_ok by lia. cbn [bind].
  destruct (decide (i = 254%nat)) as [->|Hne'].
  { rewrite store_row_overflow by (unfold BITARRAY_ROWS; lia). reflexivity. }
  replace (Z.of_nat i + 1) with (Z.of_nat (S i)) by lia.
  rewrite store_row_ok by lia. cbn [bind].
  rewrite to_uint_small by (unfold UINT_MODULUS; lia).
  replace (Z.of_nat i + 2) with (Z.of_nat (S (S i))) by lia.
  apply IH; try lia.
  replace (S (S i)) with (i + 2)%nat by lia.
  rewrite <- drop_drop, Hd. reflexivity.
Qed.

Lemma prefixed_length s : length (prefixed s) = (4 + length (c_chars s))%nat.
Proof. unfold prefixed. rewrite length_app. reflexivity. Qed.

Lemma code_of_length heap s :
  length (code_of heap s) = (length pre + length (c_chars s) + 1)%nat.
Proof.
  unfold code_of. rewrite length_app, prefixed_length. simpl. lia.
Qed.

Lemma flicker_data_unfold heap s ba :
  flicker_data heap s ba =
  do ba' <- flicker_loop (length (code_of heap s)) (code_of heap s)
              (Z.of_nat (length (code_of heap s))) 0 ba;
  Ok (code_of heap s, ba').
Proof.
  unfold flicker_data. rewrite strlen_c_string. cbn [bind].
  pose proof (code_block heap s) as H. cbn zeta in H.
  rewrite code_of_length.
  destruct (memcpy (malloc heap _) 0 pre (length pre)) as [c| |];
    cbn [bind] in *; try discriminate.
  rewrite H. reflexivity.
Qed.

(** [flicker_data] on a challenge of at most 250 characters: the rows of
    the crossed pairs of the block, then the rows that were there. *)
Lemma flicker_data_spec heap s ba :
  length ba = Z.to_nat BITARRAY_ROWS -> (length (c_chars s) <= 250)%nat ->
  flicker_data heap s ba
  = Ok (code_of heap s,
        swap_pairs (code_of heap s)
          ++ drop (length (swap_pairs (code_of heap s))) ba).
Proof.
  intros Hlen Hn. rewrite flicker_data_unfold.
  assert (Z.to_nat BITARRAY_ROWS = 255%nat) as HR by reflexivity.
  pose proof (swap_pairs_length (code_of heap s)) as Hs.
  pose proof (code_of_length heap s) as Hc.
  change (length pre) with 4%nat in Hc.
  rewrite (flicker_loop_spec (code_of heap s) _ _ 0%nat ba);
    [reflexivity | reflexivity | lia | lia | assumption].
Qed.

Lemma load_char_fuel code i : load_char code i <> OutOfFuel.
Proof.
  unfold load_char. destruct (0 <=? i); [|discriminate].
  destruct (code !! Z.to_nat i); discriminate.
Qed.

(** The loop body either stores its two rows or leaves the table. *)
Lemma flicker_body_outcome code i ba :
  flicker_body code i ba = UB \/
  exists ba', flicker_body code i ba = Ok ba' /\ i + 1 < BITARRAY_ROWS.
Proof.
  unfold flicker_body.
  destruct (load_char code i) as [c1| |] eqn:E1; cbn [bind];
    [|now left|now apply load_char_fuel in E1].
  destruct (load_char code (i + 1)) as [c2| |] eqn:E2; cbn [bind];
    [|now left|now apply load_char_fuel in E2].
  rewrite get_num_guard. unfold store_pair.
  rewrite !bits_row_permuted by apply get_num_range. cbn [bind].
  unfold store_row.
  destruct ((0 <=? i) && (i <? BITARRAY_ROWS)); [|now left]. cbn [bind].
  destruct ((0 <=? i + 1) && (i + 1 <? BITARRAY_ROWS)) eqn:E; [|now left].
  right. eexists. split; [reflexivity|].
  apply andb_true_iff in E. destruct E as [_ E]. now apply Z.ltb_lt.
Qed.

(** The iteration budget [flicker_data] passes to the loop is enough. *)
Lemma flicker_loop_fuel code :
  forall fuel i ba,
    0 <= i -> Z.of_nat (length code) - i <= Z.of_nat fuel ->
    flicker_loop fuel code (Z.of_nat (length code)) i ba <> OutOfFuel.
Proof.
  induction fuel as [|fuel IH]; intros i ba Hi Hf; cbn [flicker_loop];
    destruct (Z.ltb_spec i (Z.of_nat (length code) - 1)); try discriminate.
  - lia.
  - destruct (flicker_body_outcome code i ba) as [-> | (ba' & -> & Hb)];
      cbn [bind]; [discriminate|].
    rewrite to_uint_small by (unfold UINT_MODULUS, BITARRAY_ROWS in *; lia).
    apply IH; lia.
Qed.

Lemma flicker_data_fuel heap s ba : flicker_data heap s ba <> OutOfFuel.
Proof.
  rewrite flicker_data_unfold.
  pose proof (flicker_loop_fuel (code_of heap s) (length (code_of heap s)) 0 ba
                ltac:(lia) ltac:(lia)) as H.
  destruct (flicker_loop _ _ _ _ _); cbn [bind]; congruence.
Qed.

(** A longer challenge makes [flicker_data] write behind [bitarray]. *)
Lemma flicker_data_overflow heap s ba :
  (250 < length (c_chars s))%nat -> flicker_data heap s ba = UB.
Proof.
  intros Hn. rewrite flicker_data_unfold.
  assert (Z.to_nat BITARRAY_ROWS = 255%nat) as HR by reflexivity.
  pose proof (code_of_length heap s) as Hc.
  change (length pre) with 4%nat in Hc.
  rewrite (flicker_loop_overflow (code_of heap s) _ _ 0%nat ba);
    [reflexivity | reflexivity | lia | | lia].
  destruct (Nat.Even_or_Odd (length (code_of heap s))) as [H|H].
  - rewrite (swap_pairs_length_even _ H). lia.
  - pose proof (swap_pairs_length_odd _ H). destruct H as [m Hm]. lia.
Qed.

Lemma wf_bitarray_length ba : wf_bitarray ba -> length ba = Z.to_nat BITARRAY_ROWS.
Proof. now intros [H _]. Qed.

Lemma wf_bitarray_init : wf_bitarray bitarray_init.
Proof.
  split; [apply length_replicate|].
  apply Forall_replicate. reflexivity.
Qed.

Lemma swap_pairs_rows cs : Forall (fun r => length r = ROW_BITS) (swap_pairs cs).
Proof.
  induction cs using list_pair_ind; simpl; repeat constructor;
    try apply permuted_length; assumption.
Qed.

Lemma wf_encoded cs ba :
  wf_bitarray ba -> (length (swap_pairs cs) <= Z.to_nat BITARRAY_ROWS)%nat ->
  wf_bitarray (swap_pairs cs ++ drop (length (swap_pairs cs)) ba).
Proof.
  intros [Hlen Hrows] Hs. split.
  - rewrite length_app, length_drop. lia.
  - apply Forall_app. split; [apply swap_pairs_rows | now apply Forall_drop].
Qed.

(** The table [flicker_data] leaves, read row by row. *)
Lemma flicker_data_rows heap s ba :
  wf_bitarray ba -> (length (c_chars s) <= 250)%nat ->
  exists ba',
    flicker_data heap s ba = Ok (code_of heap s, ba') /\
    wf_bitarray ba' /\
    (forall j r, swap_pairs (code_of heap s) !! j = Some r -> ba' !! j = Some r) /\
    (forall j, (length (swap_pairs (code_of heap s)) <= j)%nat ->
               ba' !! j = ba !! j).
Proof.
  intros [Hlen Hrows] Hn. eexists. split; [now apply flicker_data_spec|].
  assert (Z.to_nat BITARRAY_ROWS = 255%nat) as HR by reflexivity.
  pose proof (swap_pairs_length (code_of heap s)) as Hs.
  pose proof (code_of_length heap s) as Hc.
  change (length pre) with 4%nat in Hc.
  split; [split|split].
  - rewrite length_app, length_drop. lia.
  - apply Forall_app. split; [apply swap_pairs_rows|].
    now apply Forall_drop.
  - intros j r Hj. now apply lookup_app_l_Some.
  - intros j Hj. rewrite lookup_app_r by assumption.
    rewrite lookup_drop. f_equal. lia.
Qed.

Lemma prefixed_in_code heap s i c :
  prefixed s !! i = Some c -> code_of heap s !! i = Some c.
Proof. intros H. unfold code_of. now apply lookup_app_l_Some. Qed.

(** C1, as stated, fails: on a challenge of 251 hex digits the pair loop
    reaches [bitarray[255]], one row behind the 255 rows of the table, so
    no pair of that challenge is stored in a defined way. *)
Lemma cross_assignment_overruns_table :
  length (c_chars (repeated 251 "1")) = 251%nat /\
  flicker_data heap_zero (repeated 251 "1") bitarray_init = UB.
Proof. split; vm_compute; reflexivity. Qed.

(** C1 (amended): for every challenge of at most 250 characters, the
    encoder goes through the prefixed character sequence in pairs
    (c[i], c[i+1]), i even, and stores permuted(nibble(c[i+1])) in table
    entry i and permuted(nibble(c[i])) in entry i+1; for challenge "1A" the
    entries 0..5 are permuted(F), permuted(0), permuted(F), permuted(F),
    permuted(A), permuted(1). *)
Theorem cross_assignment :
  (forall heap challenge ba,
      wf_bitarray ba -> (length (c_chars challenge) <= 250)%nat ->
      exists code ba',
        flicker_data heap challenge ba = Ok (code, ba') /\
        forall (i : nat) c1 c2,
          Nat.Even i ->
          prefixed challenge !! i = Some c1 ->
          prefixed challenge !! S i = Some c2 ->
          ba' !! i = Some (permuted (nibble c2)) /\
          ba' !! S i = Some (permuted (nibble c1))) /\
  (forall heap ba,
      wf_bitarray ba ->
      prefixed "1A" = ["0"; "F"; "F"; "F"; "1"; "A"]%char /\
      exists code ba',
        flicker_data heap "1A" ba = Ok (code, ba') /\
        take 6 ba' = [permuted 15; permuted 0; permuted 15; permuted 15;
                      permuted 10; permuted 1]).
Proof.
  split.
  - intros heap challenge ba Hwf Hn.
    destruct (flicker_data_rows heap challenge ba Hwf Hn)
      as (ba' & Hrun & _ & Hin & _).
    exists (code_of heap challenge), ba'. split; [assumption|].
    intros i c1 c2 [p ->] H1 H2.
    replace (S (2 * p)) with (2 * p + 1)%nat in * by lia.
    apply (prefixed_in_code heap) in H1, H2.
    destruct (swap_pairs_lookup _ _ _ _ H1 H2) as [Ha Hb].
    split; apply Hin; assumption.
  - intros heap ba Hwf. split; [reflexivity|].
    assert (length (c_chars "1A") <= 250)%nat as Hn by (vm_compute; lia).
    exists (code_of heap "1A"),
      (swap_pairs (code_of heap "1A")
         ++ drop (length (swap_pairs (code_of heap "1A"))) ba).
    split.
    + apply flicker_data_spec; [now apply wf_bitarray_length | assumption].
    + reflexivity.
Qed.

Lemma cross_assignment_witness :
  exists code ba',
    flicker_data heap_zero "1A" bitarray_init = Ok (code, ba') /\
    ba' !! 4%nat = Some (permuted (nibble "A")) /\
    ba' !! 5%nat = Some (permuted (nibble "1")).
Proof.
  destruct cross_assignment as [H _].
  destruct (H heap_zero "1A"%string bitarray_init wf_bitarray_init)
    as (code & ba' & Hrun & Hpairs).
  - vm_compute. lia.
  - exists code, ba'. split; [exact Hrun|].
    apply (Hpairs 4%nat "1"%char "A"%char).
    + exists 2%nat. reflexivity.
    + reflexivity.
    + reflexivity.
Defined.

(** ** The bit table and the nibbles *)

(** C4: the bit table maps every nibble v of 0..15 to a row of five bits
    whose slot 0 is 0 and whose data slot j (j = 1..4) is bit j-1 of v, the
    nibble laid out least significant bit first: permuted(0) = [0,0,0,0],
    permuted(1) = [1,0,0,0], permuted(8) = [0,0,0,1],
    permuted(15) = [1,1,1,1]. *)
Theorem bits_table_reverses_nibble :
  length bits = 16%nat /\
  (forall v, 0 <= v <= 15 ->
     exists r, bits_row v = Ok r /\ r = permuted v /\ length r = 5%nat /\
       forall j : nat, (1 <= j <= 4)%nat ->
         r !! j = Some (Z.testbit v (Z.of_nat j - 1))) /\
  data_bits (permuted 0) = [false; false; false; false] /\
  data_bits (permuted 1) = [true; false; false; false] /\
  data_bits (permuted 8) = [false; false; false; true] /\
  data_bits (permuted 15) = [true; true; true; true].
Proof.
  split; [reflexivity|]. split; [|repeat split; reflexivity].
  intros v Hv. exists (permuted v).
  destruct (permuted_shape v Hv) as (Hlen & _ & Hbits).
  repeat split; [now apply bits_row_permuted | assumption | assumption].
Qed.

Lemma bits_table_reverses_nibble_witness :
  exists r, bits_row 6 = Ok r /\
    r !! 1%nat = Some false /\ r !! 2%nat = Some true /\
    r !! 3%nat = Some true /\ r !! 4%nat = Some false.
Proof.
  destruct bits_table_reverses_nibble as (_ & H & _).
  destruct (H 6) as (r & Hr & _ & _ & Hbits); [lia|].
  exists r. split; [exact Hr|].
  repeat split.
  - apply (Hbits 1%nat). lia.
  - apply (Hbits 2%nat). lia.
  - apply (Hbits 3%nat). lia.
  - apply (Hbits 4%nat). lia.
Defined.

(** C10: [get_num] returns a value of 0..15 for every character, so the
    test [val1 < 0x10 && val2 < 0x10] of the pair loop always holds and the
    loop body always is its two stores: the [continue] branch is never
    taken. *)
Theorem get_num_in_range_guard_always_true :
  (forall ch, 0 <= get_num ch <= 15) /\
  (forall c1 c2, nibble_guard (get_num c1) (get_num c2) = true) /\
  (forall code i ba,
     flicker_body code i ba =
     do c1 <- load_char code i;
     do c2 <- load_char code (i + 1);
     store_pair i (nibble c1) (nibble c2) ba).
Proof.
  split; [apply get_num_range|]. split; [apply get_num_guard|].
  intros code i ba. unfold flicker_body.
  destruct (load_char code i) as [c1| |]; cbn [bind]; try reflexivity.
  destruct (load_char code (i + 1)) as [c2| |]; cbn [bind]; try reflexivity.
  now rewrite get_num_guard.
Qed.

(** C8, as stated, fails: "encoding never fails on any input string" does
    not hold for a string of 251 characters, here 251 times the invalid
    character Z, on which the pair loop writes behind [bitarray]. *)
Lemma encoding_fails_on_long_string :
  length (c_chars (repeated 251 "Z")) = 251%nat /\
  is_hex (char_to_int "Z") = false /\
  flicker_data heap_zero (repeated 251 "Z") bitarray_init = UB.
Proof. repeat split; vm_compute; reflexivity. Qed.

(** C8 (amended): for every character outside 0-9, A-F, a-f [get_num]
    returns 0, it has no error result, and the hex letters count the same
    in both cases; [flicker_data] succeeds on every input string of at most
    250 characters whatever the characters are, and on a longer one it
    overruns the table whatever they are. *)
Theorem invalid_characters_are_zero :
  (forall ch, is_hex ch = false -> get_num ch = 0) /\
  (forall ch, 65 <= ch <= 70 ->
     get_num ch = ch - 55 /\ get_num (ch + 32) = get_num ch) /\
  (forall heap challenge ba,
     wf_bitarray ba -> (length (c_chars challenge) <= 250)%nat ->
     exists code ba', flicker_data heap challenge ba = Ok (code, ba')) /\
  (forall heap challenge ba,
     (250 < length (c_chars challenge))%nat ->
     flicker_data heap challenge ba = UB).
Proof.
  split; [apply get_num_not_hex|]. split; [|split].
  - intros ch H. rewrite get_num_upper, get_num_lower by lia. lia.
  - intros heap challenge ba Hwf Hn.
    destruct (flicker_data_rows heap challenge ba Hwf Hn) as (ba' & Hrun & _).
    eauto.
  - intros heap challenge ba Hn. now apply flicker_data_overflow.
Qed.

Lemma invalid_characters_are_zero_witness :
  get_num (char_to_int "Z") = 0 /\
  get_num (char_to_int "c") = get_num (char_to_int "C") /\
  (exists code ba', flicker_data heap_zero "1Z?c" bitarray_init = Ok (code, ba')) /\
  flicker_data heap_zero (repeated 300 "7") bitarray_init = UB.
Proof.
  destruct invalid_characters_are_zero as (H1 & H2 & H3 & H4).
  split; [apply H1; reflexivity|]. split; [|split].
  - change (char_to_int "c") with (char_to_int "C" + 32).
    apply (H2 (char_to_int "C")). vm_compute. split; discriminate.
  - apply H3; [apply wf_bitarray_init | vm_compute; lia].
  - apply H4. vm_compute. lia.
Defined.

(** ** The table length *)

Lemma list_ascii_of_string_length s :
  length (list_ascii_of_string s) = String.length s.
Proof. induction s as [|c s IH]; simpl; [reflexivity | now rewrite IH]. Qed.

Lemma valid_hex_c_chars s : valid_hex s -> c_chars s = list_ascii_of_string s.
Proof.
  intros H. apply c_chars_of_no_nul.
  eapply Forall_impl; [exact H|]. intros c Hc ->. discriminate.
Qed.

Lemma prefixed_no_nul s : Forall (fun c => c <> NUL) (prefixed s).
Proof.
  apply Forall_app. split; [|apply c_chars_of_spec].
  repeat constructor; discriminate.
Qed.

(** [on_flicker_challenge_map] when the byte behind the text is a NUL. *)
Lemma map_terminated heap w :
  let s := challenge (flickerdraw w) in
  let n := length (c_chars s) in
  wf_bitarray (bitarray w) -> (n <= 250)%nat ->
  heap (length pre + n)%nat = NUL ->
  exists w',
    on_flicker_challenge_map heap w = Ok w' /\
    challenge_length (flickerdraw w') = Z.of_nat n + 4 /\
    bitarray w' = swap_pairs (prefixed s ++ [NUL])
                    ++ drop (length (swap_pairs (prefixed s ++ [NUL])))
                         (bitarray w) /\
    wf_bitarray (bitarray w') /\
    halfbyteid (flickerdraw w') = halfbyteid (flickerdraw w) /\
    clock (flickerdraw w') = clock (flickerdraw w) /\
    change_interval (flickerdraw w') = change_interval (flickerdraw w) /\
    interval (flickerdraw w') = next_id (main_context w) /\
    sources (main_context w')
      = sources (main_context w)
          ++ [(next_id (main_context w), delay (flickerdraw w))] /\
    draw_queued w' = draw_queued w.
Proof.
  intros s n Hwf Hn Hnul. unfold on_flicker_challenge_map. cbv zeta.
  change (challenge (flickerdraw w)) with s.
  rewrite (flicker_data_spec heap s (bitarray w));
    [|now apply wf_bitarray_length | exact Hn].
  cbn [bind]. unfold code_of. fold n. rewrite Hnul.
  rewrite (strlen_text (prefixed s) []) by apply prefixed_no_nul.
  cbn [bind g_timeout_add]. eexists. split; [reflexivity|].
  rewrite prefixed_length. fold n.
  rewrite to_uint_small by (unfold UINT_MODULUS; lia).
  split; [|split; [|split]]; [| reflexivity | | repeat split].
  - unfold set_main_context, set_bitarray, set_flickerdraw, set_timer,
      set_challenge_length.
    cbn [challenge_length flickerdraw]. lia.
  - apply wf_encoded; [exact Hwf|].
    pose proof (swap_pairs_length (prefixed s ++ [NUL])) as Hs.
    rewrite length_app, prefixed_length in Hs. fold n in Hs.
    change (Z.to_nat BITARRAY_ROWS) with 255%nat.
    change (length [NUL]) with 1%nat in Hs. lia.
Qed.

(** Without a NUL behind the text, [strlen(code)] leaves the block. *)
Lemma map_unterminated heap w :
  let s := challenge (flickerdraw w) in
  let n := length (c_chars s) in
  wf_bitarray (bitarray w) -> (n <= 250)%nat ->
  heap (length pre + n)%nat <> NUL ->
  on_flicker_challenge_map heap w = UB.
Proof.
  intros s n Hwf Hn Hnul. unfold on_flicker_challenge_map. cbv zeta.
  change (challenge (flickerdraw w)) with s.
  rewrite (flicker_data_spec heap s (bitarray w));
    [|now apply wf_bitarray_length | exact Hn].
  cbn [bind]. unfold code_of. fold n.
  rewrite strlen_overrun; [reflexivity|].
  apply Forall_app. split; [apply prefixed_no_nul|].
  now repeat constructor.
Qed.

(** C3, as stated, fails in two ways.  [flicker_data] allocates the byte
    for the terminator of [code] and never writes it, so [strlen(code)],
    which becomes the table length, runs over whatever [malloc] left there:
    with the empty challenge and a block filled with 'A' it leaves the
    block instead of returning 4.  And a valid challenge of 251 digits
    overruns [bitarray]. *)
Lemma table_length_not_always_n_plus_4 :
  valid_hex "" /\
  on_flicker_challenge_map (fun _ => "A"%char) (ini_flicker_gui None "" world_init)
    = UB /\
  valid_hex (repeated 251 "F") /\
  on_flicker_challenge_map heap_zero
    (ini_flicker_gui None (repeated 251 "F") world_init) = UB.
Proof.
  split; [constructor|]. split; [vm_compute; reflexivity|].
  split; [|vm_compute; reflexivity].
  unfold valid_hex, repeated. rewrite list_ascii_of_string_of_list_ascii.
  apply Forall_replicate. reflexivity.
Qed.

(** C3 (amended): for every valid hex challenge of length N <= 250
    (N = 0 included), when the byte of [code] behind the N+4 characters is
    a NUL, [on_flicker_challenge_map] sets the table length to exactly N+4,
    and the first 4 entries are those of the prefix "0FFF" alone:
    permuted(F), permuted(0), permuted(F), permuted(F). *)
Theorem table_length_is_n_plus_4 heap w :
  let s := challenge (flickerdraw w) in
  wf_bitarray (bitarray w) ->
  valid_hex s ->
  (String.length s <= 250)%nat ->
  heap (4 + String.length s)%nat = NUL ->
  exists w',
    on_flicker_challenge_map heap w = Ok w' /\
    challenge_length (flickerdraw w') = Z.of_nat (String.length s) + 4 /\
    take 4 (bitarray w')
      = [permuted 15; permuted 0; permuted 15; permuted 15].
Proof.
  intros s Hwf Hhex Hn Hnul.
  assert (length (c_chars s) = String.length s) as HN
    by (rewrite valid_hex_c_chars, list_ascii_of_string_length; auto).
  destruct (map_terminated heap w Hwf) as (w' & Hrun & Hlen & Hba & _ & _).
  - fold s. rewrite HN. exact Hn.
  - fold s. rewrite HN. exact Hnul.
  - exists w'. split; [exact Hrun|]. fold s in Hlen, Hba. rewrite HN in Hlen.
    split; [exact Hlen|]. rewrite Hba. reflexivity.
Qed.

Lemma table_length_is_n_plus_4_witness :
  exists w',
    on_flicker_challenge_map heap_zero (ini_flicker_gui None "" world_init)
      = Ok w' /\
    challenge_length (flickerdraw w') = 4 /\
    take 4 (bitarray w')
      = [permuted 15; permuted 0; permuted 15; permuted 15].
Proof.
  apply (table_length_is_n_plus_4 heap_zero (ini_flicker_gui None "" world_init)).
  - apply wf_bitarray_init.
  - constructor.
  - simpl. lia.
  - reflexivity.
Defined.

(** ** Challenges of odd length *)

(** C7, as stated, fails: the loop runs while [i < len - 1] with [len]
    counting the terminator byte, so for a challenge of odd length it does
    process the final character, paired with the byte behind it.  After a
    session with challenge "FF", encoding the challenge "1" (code block
    "0FFF1" and a NUL) overwrites entry 4, the slot of the final character,
    and stores the nibble of that character in entry 5. *)
Lemma trailing_character_is_processed :
  exists code1 ba1 code2 ba2,
    flicker_data heap_zero "FF" bitarray_init = Ok (code1, ba1) /\
    flicker_data heap_zero "1" ba1 = Ok (code2, ba2) /\
    ba1 !! 4%nat = Some (permuted 15) /\
    ba2 !! 4%nat = Some (permuted 0) /\
    ba1 !! 5%nat = Some (permuted 15) /\
    ba2 !! 5%nat = Some (permuted (nibble "1")) /\
    permuted (nibble "1") <> permuted 15 /\ permuted 0 <> permuted 15.
Proof.
  eexists _, _, _, _.
  split; [vm_compute; reflexivity|].
  split; [vm_compute; reflexivity|].
  repeat split; try reflexivity; discriminate.
Qed.

(** C7 (amended): for every challenge of odd length N <= 250 whose block
    has a NUL behind the text, the pair loop raises no error and does
    process the final character c, as the pair (c, NUL): table entry N+3,
    the slot of c, is overwritten with permuted(0), and permuted(nibble(c))
    is stored in entry N+4, the first one behind the N+4 entries of the
    table. *)
Theorem trailing_character_paired_with_terminator heap challenge ba c :
  let n := length (c_chars challenge) in
  wf_bitarray ba ->
  Nat.Odd n -> (n <= 250)%nat ->
  last (c_chars challenge) = Some c ->
  heap (4 + n)%nat = NUL ->
  exists code ba',
    flicker_data heap challenge ba = Ok (code, ba') /\
    code !! (n + 3)%nat = Some c /\
    code !! (n + 4)%nat = Some NUL /\
    ba' !! (n + 3)%nat = Some (permuted 0) /\
    ba' !! (n + 4)%nat = Some (permuted (nibble c)).
Proof.
  intros n Hwf [k Hk] Hn Hlast Hnul.
  destruct (flicker_data_rows heap challenge ba Hwf Hn)
    as (ba' & Hrun & _ & Hin & _).
  exists (code_of heap challenge), ba'. split; [exact Hrun|].
  assert (code_of heap challenge !! (n + 3)%nat = Some c) as H1.
  { apply prefixed_in_code. unfold prefixed.
    rewrite lookup_app_r by (simpl; lia).
    rewrite last_lookup in Hlast. fold n in Hlast.
    rewrite <- Hlast. f_equal. simpl. lia. }
  assert (code_of heap challenge !! (n + 4)%nat = Some NUL) as H2.
  { unfold code_of. rewrite lookup_app_r by (rewrite prefixed_length; fold n; lia).
    rewrite prefixed_length. fold n.
    replace (n + 4 - (4 + n))%nat with 0%nat by lia.
    simpl. f_equal. exact Hnul. }
  split; [exact H1|]. split; [exact H2|].
  replace (n + 3)%nat with (2 * (k + 2))%nat in * by lia.
  replace (n + 4)%nat with (2 * (k + 2) + 1)%nat in * by lia.
  destruct (swap_pairs_lookup _ _ _ _ H1 H2) as [Ha Hb].
  split; apply Hin; assumption.
Qed.

Lemma trailing_character_paired_with_terminator_witness :
  exists code ba',
    flicker_data heap_zero "1A7" bitarray_init = Ok (code, ba') /\
    code !! 6%nat = Some "7"%char /\
    code !! 7%nat = Some NUL /\
    ba' !! 6%nat = Some (permuted 0) /\
    ba' !! 7%nat = Some (permuted (nibble "7")).
Proof.
  apply (trailing_character_paired_with_terminator
           heap_zero "1A7" bitarray_init "7"%char).
  - apply wf_bitarray_init.
  - exists 1%nat. reflexivity.
  - vm_compute. lia.
  - reflexivity.
  - reflexivity.
Defined.

(** ** The animator *)

Lemma row_shape (r : Row) :
  length r = ROW_BITS ->
  exists b0 b1 b2 b3 b4, r = [b0; b1; b2; b3; b4].
Proof.
  intros H.
  destruct r as [|b0 [|b1 [|b2 [|b3 [|b4 [|b5 r]]]]]]; try discriminate.
  eauto 6.
Qed.

Lemma store_bit_ok ba (h j : nat) b r :
  (h < Z.to_nat BITARRAY_ROWS)%nat -> (j < ROW_BITS)%nat ->
  ba !! h = Some r ->
  store_bit ba (Z.of_nat h) j b = Ok (<[h := <[j := b]> r]> ba).
Proof.
  intros Hh Hj Hr. unfold store_bit.
  replace ((0 <=? Z.of_nat h) && (Z.of_nat h <? BITARRAY_ROWS)) with true
    by (symmetry; apply andb_true_iff; split;
        [apply Z.leb_le | apply Z.ltb_lt]; lia).
  apply Nat.ltb_lt in Hj. rewrite Hj, Nat2Z.id, Hr. reflexivity.
Qed.

Lemma load_bit_ok ba (h j : nat) b r :
  (h < Z.to_nat BITARRAY_ROWS)%nat -> (j < ROW_BITS)%nat ->
  ba !! h = Some r -> r !! j = Some b ->
  load_bit ba (Z.of_nat h) j = Ok b.
Proof.
  intros Hh Hj Hr Hb. unfold load_bit.
  replace ((0 <=? Z.of_nat h) && (Z.of_nat h <? BITARRAY_ROWS)) with true
    by (symmetry; apply andb_true_iff; split;
        [apply Z.leb_le | apply Z.ltb_lt]; lia).
  apply Nat.ltb_lt in Hj. rewrite Hj, Nat2Z.id, Hr, Hb. reflexivity.
Qed.

Lemma do_flicker_drawing_step w (h : nat) r :
  halfbyteid (flickerdraw w) = Z.of_nat h ->
  (h < Z.to_nat BITARRAY_ROWS)%nat ->
  bitarray w !! h = Some r -> length r = ROW_BITS ->
  let c := to_Bool (clock (flickerdraw w)) in
  do_flicker_drawing w
  = Ok (frame_of r c,
        set_flickerdraw (advance (flickerdraw w))
          (set_bitarray (<[h := frame_of r c]> (bitarray w)) w)).
Proof.
  intros Hh Hlt Hr Hlen c. unfold do_flicker_drawing. rewrite Hh.
  destruct (row_shape r Hlen) as (b0 & b1 & b2 & b3 & b4 & ->).
  assert (forall x : Row, <[h := x]> (bitarray w) !! h = Some x) as Hins
    by (intros x; apply list_lookup_insert_eq, (lookup_lt_Some _ _ _ Hr)).
  rewrite (store_bit_ok _ _ 0%nat _ _ Hlt ltac:(unfold ROW_BITS; lia) Hr).
  cbn [bind draw_data_bits]. set (r' := <[0%nat := _]> _).
  rewrite (load_bit_ok _ _ 1 b1 r' Hlt ltac:(unfold ROW_BITS; lia) (Hins r') eq_refl).
  cbn [bind].
  rewrite (load_bit_ok _ _ 2 b2 r' Hlt ltac:(unfold ROW_BITS; lia) (Hins r') eq_refl).
  cbn [bind].
  rewrite (load_bit_ok _ _ 3 b3 r' Hlt ltac:(unfold ROW_BITS; lia) (Hins r') eq_refl).
  cbn [bind].
  rewrite (load_bit_ok _ _ 4 b4 r' Hlt ltac:(unfold ROW_BITS; lia) (Hins r') eq_refl).
  cbn [bind].
  reflexivity.
Qed.

Lemma succ_mod (a L : Z) :
  0 <= a -> 0 < L ->
  (a + 1) mod L = if L <=? a mod L + 1 then 0 else a mod L + 1.
Proof.
  intros Ha HL. pose proof (Z.mod_pos_bound a L HL) as Hb.
  pose proof (Z.div_mod a L ltac:(lia)) as Hd.
  destruct (Z.leb_spec L (a mod L + 1)).
  - symmetry. apply (Z.mod_unique _ _ (a / L + 1)); lia.
  - symmetry. apply (Z.mod_unique _ _ (a / L)); lia.
Qed.

Lemma half_even (m : nat) : Z.of_nat (2 * m) / 2 = Z.of_nat m.
Proof. symmetry. apply (Z.div_unique _ _ _ 0); lia. Qed.

Lemma half_odd (m : nat) : Z.of_nat (S (2 * m)) / 2 = Z.of_nat m.
Proof. symmetry. apply (Z.div_unique _ _ _ 1); lia. Qed.

Lemma cursor_at_bound L k : 0 < L -> 0 <= cursor_at L k < L.
Proof. intros H. unfold cursor_at. now apply Z.mod_pos_bound. Qed.

Lemma clock_at_even k : to_Bool (clock_at k) = Nat.even k.
Proof. unfold clock_at. now destruct (Nat.even k). Qed.

(** The closing [if] moves the animator from frame [k] to frame [k+1]. *)
Lemma advance_phase fd L k :
  0 < L <= BITARRAY_ROWS ->
  challenge_length fd = L ->
  halfbyteid fd = cursor_at L k -> clock fd = clock_at k ->
  halfbyteid (advance fd) = cursor_at L (S k) /\
  clock (advance fd) = clock_at (S k) /\
  challenge_length (advance fd) = L /\
  change_interval (advance fd) = change_interval fd /\
  (halfbyteid (advance fd) <> halfbyteid fd -> clock fd = 0).
Proof.
  intros HL Hlen Hh Hc. unfold advance. rewrite Hc, Hh, Hlen.
  unfold clock_at, cursor_at.
  destruct (Nat.Even_or_Odd k) as [[m ->] | [m ->]].
  - assert (Nat.even (S (2 * m)) = false) as E
        by (replace (S (2 * m)) with (2 * m + 1)%nat by lia; apply Nat.even_odd).
    rewrite Nat.even_even, half_even, half_odd, E. cbn.
    repeat split; try assumption. congruence.
  - rewrite Nat.even_odd.
    replace (S (2 * m + 1)) with (2 * (m + 1))%nat by lia.
    replace (2 * m + 1)%nat with (S (2 * m)) by lia.
    rewrite Nat.even_even, half_even, half_odd.
    change (0 =? 0) with true. cbn iota.
    pose proof (Z.mod_pos_bound (Z.of_nat m) L ltac:(lia)) as Hb.
    rewrite to_uint_small
      by (unfold UINT_MODULUS, BITARRAY_ROWS in *; lia).
    replace (Z.of_nat (m + 1)) with (Z.of_nat m + 1) by lia.
    rewrite succ_mod by lia.
    repeat split; try assumption.
Qed.

Lemma frame_of_data (r : Row) c : r <> [] -> frame_of r c = c :: data_bits r.
Proof. intros H. destruct r; [contradiction | reflexivity]. Qed.

Lemma frame_of_length (r : Row) c : length (frame_of r c) = length r.
Proof. apply length_insert. Qed.

Lemma data_bits_frame_of (r : Row) c : data_bits (frame_of r c) = data_bits r.
Proof. destruct r; reflexivity. Qed.

(** One period from frame [k]: the entry under the cursor with the clock
    in slot 0 is painted, and the animator is at frame [k+1]. *)
Lemma on_tick_phase ba0 L k w :
  0 < L <= BITARRAY_ROWS ->
  at_phase ba0 L k w ->
  exists w',
    on_tick w
    = Ok (Some (frame_of (ba0 !!! Z.to_nat (cursor_at L k)) (Nat.even k)), w') /\
    at_phase ba0 L (S k) w'.
Proof.
  intros HL (Hflag & Hlen & Hh & Hc & [Hrows Hwidth] & Hdata).
  pose proof (cursor_at_bound L k ltac:(lia)) as Hb.
  set (h := Z.to_nat (cursor_at L k)).
  assert (Z.to_nat BITARRAY_ROWS = 255%nat) as HR by reflexivity.
  assert (h < Z.to_nat BITARRAY_ROWS)%nat as Hlt
      by (unfold h, BITARRAY_ROWS in *; lia).
  destruct (lookup_lt_is_Some_2 (bitarray w) h ltac:(lia)) as [r Hr].
  pose proof (Forall_lookup_1 _ _ _ _ Hwidth Hr) as Hrlen. cbn beta in Hrlen.
  assert (halfbyteid (flickerdraw w) = Z.of_nat h) as Hh'
      by (rewrite Hh; unfold h; lia).
  unfold on_tick, timeout_dispatch, time_handler. rewrite Hflag. cbn iota beta.
  cbn [draw_queued set_draw_queued].
  rewrite (do_flicker_drawing_step
             (set_draw_queued false (set_draw_queued true w)) h r Hh' Hlt Hr Hrlen).
  cbn [bind].
  cbn [flickerdraw bitarray set_draw_queued].
  destruct (advance_phase (flickerdraw w) L k HL Hlen Hh Hc)
    as (Ha1 & Ha2 & Ha3 & Ha4 & _).
  eexists. split.
  - f_equal. f_equal. f_equal. rewrite Hc, clock_at_even.
    pose proof (Hdata h) as Hd. rewrite Hr in Hd. cbn in Hd.
    destruct (ba0 !! h) as [r0|] eqn:Hr0; [|discriminate].
    cbn in Hd. injection Hd as Hd.
    rewrite (list_lookup_total_correct _ _ _ Hr0).
    destruct (row_shape r Hrlen) as (b0 & b1 & b2 & b3 & b4 & ->).
    destruct r0 as [|c0 r0]; [discriminate|].
    cbn in Hd. rewrite drop_0 in Hd. subst r0. reflexivity.
  - unfold at_phase. cbn [flickerdraw bitarray set_flickerdraw set_bitarray].
    rewrite Ha4. repeat split; try assumption.
    + rewrite length_insert. exact Hrows.
    + apply Forall_insert; [exact Hwidth|].
      rewrite frame_of_length. exact Hrlen.
    + intros i. destruct (decide (i = h)) as [->|Hne].
      * rewrite list_lookup_insert_eq by lia. rewrite <- Hdata, Hr. cbn.
        now rewrite data_bits_frame_of.
      * rewrite list_lookup_insert_ne by congruence. apply Hdata.
Qed.

Lemma run_ticks_phase ba0 L :
  0 < L <= BITARRAY_ROWS ->
  forall n k w,
    at_phase ba0 L k w ->
    exists fs w',
      run_ticks n w = Ok (fs, w') /\
      at_phase ba0 L (k + n) w' /\
      length fs = n /\
      forall j, (j < n)%nat ->
        fs !! j = Some (Some (frame_of (ba0 !!! Z.to_nat (cursor_at L (k + j)))
                                (Nat.even (k + j)))).
Proof.
  intros HL. induction n as [|n IH]; intros k w Hw.
  - exists [], w. rewrite Nat.add_0_r.
    split; [reflexivity|]. split; [exact Hw|]. split; [reflexivity|].
    intros j Hj. lia.
  - destruct (on_tick_phase ba0 L k w HL Hw) as (w1 & Htick & Hw1).
    destruct (IH (S k) w1 Hw1) as (fs & w' & Hrun & Hw' & Hlen & Hfs).
    cbn [run_ticks]. rewrite Htick. cbn [bind]. rewrite Hrun. cbn [bind].
    eexists _, w'. split; [reflexivity|].
    replace (k + S n)%nat with (S k + n)%nat by lia.
    split; [exact Hw'|]. split; [cbn; now rewrite Hlen|].
    intros [|j] Hj.
    + rewrite Nat.add_0_r. reflexivity.
    + cbn. rewrite Hfs by lia.
      replace (S k + j)%nat with (k + S j)%nat by lia. reflexivity.
Qed.

Lemma cursor_at_step L j :
  0 < L ->
  cursor_at L (S j)
  = if Nat.even j then cursor_at L j else (cursor_at L j + 1) mod L.
Proof.
  intros HL. unfold cursor_at.
  destruct (Nat.Even_or_Odd j) as [[m ->] | [m ->]].
  - now rewrite Nat.even_even, half_even, half_odd.
  - rewrite Nat.even_odd.
    replace (S (2 * m + 1)) with (2 * (m + 1))%nat by lia.
    replace (2 * m + 1)%nat with (S (2 * m)) by lia.
    rewrite half_even, half_odd.
    replace (Z.of_nat (m + 1)) with (Z.of_nat m + 1) by lia.
    rewrite Zplus_mod_idemp_l. reflexivity.
Qed.

(** C2: from the initial animator state (cursor 0, clock 1, no interval
    change pending) over a table of L entries, every period paints: frame j
    is the table entry at index (j / 2) mod L with slot 0 replaced by the
    clock, which is true for even j and false for odd j.  So every entry is
    shown in two consecutive frames, frames 0 and 1 show entry 0, frames 2
    and 3 entry 1; the cursor stays where it is after a frame painted with
    clock true and moves on by one, wrapping to 0 at L, after a frame
    painted with clock false, when the clock goes back to true. *)
Theorem animator_cadence w (n : nat) :
  let L := challenge_length (flickerdraw w) in
  wf_bitarray (bitarray w) ->
  0 < L <= BITARRAY_ROWS ->
  halfbyteid (flickerdraw w) = 0 ->
  clock (flickerdraw w) = 1 ->
  change_interval (flickerdraw w) = false ->
  exists frames w',
    run_ticks n w = Ok (frames, w') /\
    length frames = n /\
    (forall j, (j < n)%nat ->
       frames !! j
       = Some (Some (frame_of (bitarray w !!! Z.to_nat ((Z.of_nat j / 2) mod L))
                       (Nat.even j)))) /\
    halfbyteid (flickerdraw w') = (Z.of_nat n / 2) mod L /\
    clock (flickerdraw w') = (if Nat.even n then 1 else 0) /\
    (forall j : nat,
       (Z.of_nat (S j) / 2) mod L
       = if Nat.even j then (Z.of_nat j / 2) mod L
         else ((Z.of_nat j / 2) mod L + 1) mod L) /\
    (Z.of_nat 0 / 2) mod L = 0 /\ (Z.of_nat 1 / 2) mod L = 0 /\
    (1 < L -> (Z.of_nat 2 / 2) mod L = 1 /\ (Z.of_nat 3 / 2) mod L = 1).
Proof.
  intros L Hwf HL Hh Hc Hflag.
  assert (at_phase (bitarray w) L 0 w) as H0.
  { unfold at_phase. split; [exact Hflag|]. split; [reflexivity|].
    split; [|split; [rewrite Hc; reflexivity|split; [exact Hwf|reflexivity]]].
    rewrite Hh. unfold cursor_at. symmetry. apply Z.mod_0_l. lia. }
  destruct (run_ticks_phase (bitarray w) L HL n 0%nat w H0)
    as (fs & w' & Hrun & (_ & _ & Hh' & Hc' & _) & Hlen & Hfs).
  exists fs, w'. split; [exact Hrun|]. split; [exact Hlen|].
  split; [exact Hfs|]. split; [exact Hh'|]. split; [exact Hc'|].
  split; [intros j; apply (cursor_at_step L j); lia|].
  split; [cbn; apply Z.mod_0_l; lia|].
  split; [cbn; apply Z.mod_0_l; lia|].
  intros H1. split.
  - change (Z.of_nat 2 / 2) with 1. apply Z.mod_small. lia.
  - change (Z.of_nat 3 / 2) with 1. apply Z.mod_small. lia.
Qed.

Lemma wf_bitarrayb_spec ba : wf_bitarrayb ba = true -> wf_bitarray ba.
Proof.
  unfold wf_bitarrayb, wf_bitarray. intros H.
  apply andb_true_iff in H. destruct H as [H1 H2].
  split; [now apply Nat.eqb_eq|].
  rewrite List.Forall_forall. intros r Hr.
  rewrite forallb_forall in H2. apply Nat.eqb_eq. now apply H2.
Qed.

Lemma animator_cadence_witness :
  exists frames w',
    run_ticks 4 session_1A = Ok (frames, w') /\
    length frames = 4%nat /\
    (forall j, (j < 4)%nat ->
       frames !! j
       = Some (Some (frame_of (bitarray session_1A
                                 !!! Z.to_nat ((Z.of_nat j / 2) mod 6))
                       (Nat.even j)))) /\
    halfbyteid (flickerdraw w') = (Z.of_nat 4 / 2) mod 6 /\
    clock (flickerdraw w') = 1.
Proof.
  destruct (animator_cadence session_1A 4)
    as (frames & w' & H1 & H2 & H3 & H4 & H5 & _).
  - apply wf_bitarrayb_spec. vm_compute. reflexivity.
  - vm_compute. split; [reflexivity | discriminate].
  - reflexivity.
  - reflexivity.
  - reflexivity.
  - exists frames, w'. repeat split; assumption.
Defined.

(** ** Changing the interval *)

Lemma do_flicker_drawing_animator w1 w2 :
  animator_state w1 = animator_state w2 ->
  (do ' (f, w') <- do_flicker_drawing w1; Ok (f, animator_state w'))
  = (do ' (f, w') <- do_flicker_drawing w2; Ok (f, animator_state w')).
Proof.
  unfold animator_state. intros H. injection H as Hh Hc Hl Hb.
  unfold do_flicker_drawing. rewrite Hh, Hc, Hb.
  assert (halfbyteid (advance (flickerdraw w1)) = halfbyteid (advance (flickerdraw w2))
          /\ clock (advance (flickerdraw w1)) = clock (advance (flickerdraw w2))
          /\ challenge_length (advance (flickerdraw w1))
             = challenge_length (advance (flickerdraw w2))) as (E1 & E2 & E3).
  { unfold advance. rewrite Hh, Hc, Hl.
    destruct (clock (flickerdraw w2) =? 0); cbn;
      [|destruct (negb false)]; cbn; auto. }
  destruct (store_bit _ _ _ _) as [ba| |]; cbn [bind]; try reflexivity.
  destruct (draw_data_bits ba _ _ _) as [bars| |]; cbn [bind]; try reflexivity.
  unfold animator_state. cbn [flickerdraw bitarray set_flickerdraw set_bitarray].
  now rewrite E1, E2, E3.
Qed.

(** C5, as stated, fails: [on_spin_delay_value_changed] does not leave the
    rescheduling to the next firing of the old timer.  It calls
    [time_handler] itself, so when it returns, in the session of "1A" with
    the new delay 100, the flag is already cleared again, the source of
    period 50 is gone and a source of period 100 is installed: no tick at
    the old cadence follows. *)
Lemma set_interval_does_reschedule :
  let w := session_1A in
  let w' := on_spin_delay_value_changed 100 w in
  sources (main_context w) = [(1, 50)] /\
  interval (flickerdraw w) = 1 /\
  change_interval (flickerdraw w') = false /\
  sources (main_context w') = [(2, 100)] /\
  interval (flickerdraw w') = 2.
Proof. vm_compute. repeat split; reflexivity. Qed.

(** C5 (amended): [on_spin_delay_value_changed] stores the new interval,
    sets the pending flag and then itself calls [time_handler] at once: when
    it returns the old-interval timer is cancelled, a timer of the new
    interval is scheduled, the flag is cleared again, no redraw has been
    queued and cursor, clock and table are unchanged.  No tick at the old
    cadence occurs after the call: the old timer is no longer a source of
    the main context. *)
Theorem set_interval_reschedules_at_once (v : Z) (w : World) :
  let w' := on_spin_delay_value_changed v w in
  let old := interval (flickerdraw w) in
  delay (flickerdraw w') = to_uint v /\
  change_interval (flickerdraw w') = false /\
  interval (flickerdraw w') = next_id (main_context w) /\
  sources (main_context w')
    = filter (fun s => s.1 <> old) (sources (main_context w))
        ++ [(next_id (main_context w), to_uint v)] /\
  draw_queued w' = draw_queued w /\
  animator_state w' = animator_state w /\
  (old <> next_id (main_context w) ->
   Forall (fun s => s.1 <> old) (sources (main_context w'))).
Proof.
  repeat split. intros Hfresh.
  apply Forall_forall. intros s Hs.
  apply elem_of_app in Hs. destruct Hs as [Hs | Hs].
  - apply list_elem_of_filter in Hs. apply Hs.
  - apply list_elem_of_singleton in Hs. subst s. cbn. congruence.
Qed.

Lemma set_interval_reschedules_at_once_witness :
  let w' := on_spin_delay_value_changed 100 session_1A in
  change_interval (flickerdraw w') = false /\
  sources (main_context w') = [(2, 100)] /\
  Forall (fun s => s.1 <> 1) (sources (main_context w')).
Proof.
  destruct (set_interval_reschedules_at_once 100 session_1A)
    as (_ & H2 & _ & H4 & _ & _ & H7).
  split; [exact H2|]. split; [rewrite H4; vm_compute; reflexivity|].
  apply H7. vm_compute. discriminate.
Defined.

Lemma time_handler_pending w :
  change_interval (flickerdraw w) = true ->
  time_handler w = (false, rescheduled w).
Proof. intros H. unfold time_handler. now rewrite H. Qed.

Lemma time_handler_idle w :
  change_interval (flickerdraw w) = false ->
  time_handler w = (true, set_draw_queued true w).
Proof. intros H. unfold time_handler. now rewrite H. Qed.

Lemma on_tick_idle w :
  change_interval (flickerdraw w) = false ->
  on_tick w
  = do ' (f, w2) <- do_flicker_drawing
                     (set_draw_queued false (set_draw_queued true w));
    Ok (Some f, w2).
Proof.
  intros H. unfold on_tick, timeout_dispatch.
  now rewrite (time_handler_idle w H).
Qed.

(** C6: when [time_handler] runs with the pending flag set it clears the
    flag, cancels the old-interval timer, schedules a timer of the new
    interval and returns FALSE without queueing a redraw; cursor, clock and
    table are as before.  As a period of the timer this is a tick without a
    frame, and the tick after it paints what a redraw from the state before
    would have painted and leaves the animator state that redraw would have
    left: no symbol is skipped or repeated. *)
Theorem pending_interval_tick (w : World) :
  change_interval (flickerdraw w) = true ->
  exists w',
    time_handler w = (false, w') /\
    change_interval (flickerdraw w') = false /\
    interval (flickerdraw w') = next_id (main_context w) /\
    sources (main_context w')
      = filter (fun s => s.1 <> interval (flickerdraw w)) (sources (main_context w))
          ++ [(next_id (main_context w), delay (flickerdraw w))] /\
    draw_queued w' = draw_queued w /\
    animator_state w' = animator_state w /\
    (draw_queued w = false ->
     exists w1,
       on_tick w = Ok (None, w1) /\
       change_interval (flickerdraw w1) = false /\
       draw_queued w1 = false /\
       animator_state w1 = animator_state w /\
       (do ' (f, w2) <- on_tick w1; Ok (f, animator_state w2))
       = (do ' (f, w2) <- do_flicker_drawing w; Ok (Some f, animator_state w2))).
Proof.
  intros Hflag. exists (rescheduled w).
  split; [now apply time_handler_pending|].
  repeat split.
  intros Hq. eexists. split.
  - unfold on_tick, timeout_dispatch.
    rewrite (time_handler_pending w Hflag).
    cbn [draw_queued rescheduled set_main_context set_flickerdraw].
    rewrite Hq. reflexivity.
  - split; [reflexivity|]. split; [exact Hq|]. split; [reflexivity|].
    rewrite on_tick_idle by reflexivity.
    set (w1 := set_draw_queued false _).
    pose proof (do_flicker_drawing_animator w1 w eq_refl) as H.
    destruct (do_flicker_drawing w1) as [[f1 w1']| |],
      (do_flicker_drawing w) as [[f2 w2']| |];
      cbn [bind] in *; try discriminate; try reflexivity.
    assert (f1 = f2) as -> by congruence.
    assert (animator_state w1' = animator_state w2') as -> by congruence.
    reflexivity.
Qed.

Lemma pending_interval_tick_witness :
  exists w',
    time_handler session_1A_pending = (false, w') /\
    change_interval (flickerdraw w') = false /\
    sources (main_context w') = [(2, 100)] /\
    animator_state w' = animator_state session_1A_pending /\
    exists w1,
      on_tick session_1A_pending = Ok (None, w1) /\
      animator_state w1 = animator_state session_1A_pending.
Proof.
  destruct (pending_interval_tick session_1A_pending)
    as (w' & H1 & H2 & _ & H4 & _ & H6 & H7).
  - reflexivity.
  - exists w'. split; [exact H1|]. split; [exact H2|].
    split; [rewrite H4; vm_compute; reflexivity|]. split; [exact H6|].
    destruct H7 as (w1 & Ht & _ & _ & Ha & _); [reflexivity|].
    exists w1. split; [exact Ht | exact Ha].
Defined.

(** ** The clock slot *)

Lemma swap_pairs_elem cs i r :
  swap_pairs cs !! i = Some r -> exists c, r = permuted (nibble c).
Proof.
  revert i. induction cs as [|a|a b l IH] using list_pair_ind; intros i H;
    cbn [swap_pairs] in H; try discriminate.
  destruct i as [|[|i]]; cbn in H.
  - injection H as <-. eauto.
  - injection H as <-. eauto.
  - eauto.
Qed.

Lemma swap_pairs_length_ge cs : (length cs - 1 <= length (swap_pairs cs))%nat.
Proof.
  destruct (Nat.Even_or_Odd (length cs)) as [H|H].
  - rewrite (swap_pairs_length_even _ H). lia.
  - pose proof (swap_pairs_length_odd _ H). lia.
Qed.

(** C9, as stated, fails: the encoder does write slot 0.  Each of its
    [memcpy] calls copies a whole five-slot row of [bits], slot 0 included.
    In the session of "1A" the first frame leaves entry 0 with the clock
    bit 1 in slot 0; the dialog is closed and, [bitarray] being a global,
    the next session of the same challenge starts from that table: its
    encoder resets the slot to 0. *)
Lemma encoder_overwrites_clock_slot :
  exists w1 f w2 w3,
    on_flicker_challenge_map heap_zero (ini_flicker_gui None "1A" world_init)
      = Ok w1 /\
    on_tick w1 = Ok (f, w2) /\
    on_flicker_challenge_map heap_zero
      (ini_flicker_gui None "1A" (on_flicker_challenge_destroy w2)) = Ok w3 /\
    bitarray w2 !! 0%nat = Some [true; true; true; true; true] /\
    bitarray w3 !! 0%nat = Some [false; true; true; true; true].
Proof.
  eexists _, _, _, _.
  split; [vm_compute; reflexivity|].
  split; [vm_compute; reflexivity|].
  split; [vm_compute; reflexivity|].
  split; reflexivity.
Qed.

(** C9 (amended): the encoder writes all five slots of every entry it
    stores: for every challenge of N <= 250 characters each of the N+4 table
    entries becomes a whole row of the bit table, so its slot 0 is set to 0
    whatever it held and its slots 1..4 are the nibble's bits.  The animator
    overwrites slot 0 of the entry under the cursor with the clock value at
    render time, and the bar it paints for slot 0 is the clock. *)
Theorem encoder_zeroes_clock_slot :
  (forall heap challenge ba,
     wf_bitarray ba -> (length (c_chars challenge) <= 250)%nat ->
     exists code ba',
       flicker_data heap challenge ba = Ok (code, ba') /\
       forall i, (i < length (c_chars challenge) + 4)%nat ->
         exists v, 0 <= v <= 15 /\
           ba' !! i = Some (permuted v) /\
           permuted v !! 0%nat = Some false) /\
  (forall w (h : nat) r,
     halfbyteid (flickerdraw w) = Z.of_nat h ->
     (h < Z.to_nat BITARRAY_ROWS)%nat ->
     bitarray w !! h = Some r -> length r = ROW_BITS ->
     let c := to_Bool (clock (flickerdraw w)) in
     exists frame w',
       do_flicker_drawing w = Ok (frame, w') /\
       frame !! 0%nat = Some c /\
       drop 1 frame = drop 1 r /\
       bitarray w' !! h = Some frame).
Proof.
  split.
  - intros heap challenge ba Hwf Hn.
    destruct (flicker_data_rows heap challenge ba Hwf Hn)
      as (ba' & Hrun & _ & Hin & _).
    exists (code_of heap challenge), ba'. split; [exact Hrun|].
    intros i Hi.
    pose proof (swap_pairs_length_ge (code_of heap challenge)) as Hge.
    rewrite code_of_length in Hge. change (length pre) with 4%nat in Hge.
    destruct (lookup_lt_is_Some_2 (swap_pairs (code_of heap challenge)) i)
      as [r Hr]; [lia|].
    destruct (swap_pairs_elem _ _ _ Hr) as [c ->].
    exists (nibble c). split; [apply get_num_range|].
    split; [now apply Hin|].
    destruct (permuted_shape (nibble c) (get_num_range _)) as (_ & H0 & _).
    exact H0.
  - intros w h r Hh Hlt Hr Hlen c.
    eexists _, _. split; [exact (do_flicker_drawing_step w h r Hh Hlt Hr Hlen)|].
    destruct (row_shape r Hlen) as (b0 & b1 & b2 & b3 & b4 & ->).
    split; [reflexivity|]. split; [reflexivity|].
    cbn [bitarray set_flickerdraw set_bitarray].
    apply list_lookup_insert_eq. now apply (lookup_lt_Some _ _ _ Hr).
Qed.

Lemma encoder_zeroes_clock_slot_witness :
  (exists code ba',
     flicker_data heap_zero "1A" (bitarray session_1A) = Ok (code, ba') /\
     exists v, 0 <= v <= 15 /\ ba' !! 5%nat = Some (permuted v) /\
       permuted v !! 0%nat = Some false) /\
  (exists frame w',
     do_flicker_drawing session_1A = Ok (frame, w') /\
     frame !! 0%nat = Some true /\
     drop 1 frame = [true; true; true; true] /\
     bitarray w' !! 0%nat = Some frame).
Proof.
  destruct encoder_zeroes_clock_slot as [H1 H2]. split.
  - destruct (H1 heap_zero "1A"%string (bitarray session_1A))
      as (code & ba' & Hrun & Hrows).
    + apply wf_bitarrayb_spec. vm_compute. reflexivity.
    + vm_compute. lia.
    + exists code, ba'. split; [exact Hrun|].
      apply (Hrows 5%nat). vm_compute. lia.
  - apply (H2 session_1A 0%nat [false; true; true; true; true]).
    + reflexivity.
    + vm_compute. lia.
    + reflexivity.
    + reflexivity.
Defined.

(** * Further properties *)

(** ** The encoder *)

Lemma swap_pairs_app_even cs1 cs2 :
  Nat.Even (length cs1) ->
  swap_pairs (cs1 ++ cs2) = swap_pairs cs1 ++ swap_pairs cs2.
Proof.
  induction cs1 as [|a|a b l IH] using list_pair_ind; intros H.
  - reflexivity.
  - destruct H as [k Hk]. simpl in Hk. lia.
  - cbn [app swap_pairs]. rewrite IH; [reflexivity|].
    destruct H as [k Hk]. exists (k - 1)%nat. simpl in Hk. lia.
Qed.

Lemma swap_pairs_length_exact cs :
  length (swap_pairs cs) = (2 * (length cs / 2))%nat.
Proof.
  induction cs as [|a|a b l IH] using list_pair_ind.
  - reflexivity.
  - reflexivity.
  - cbn [swap_pairs length]. rewrite IH.
    replace (S (S (length l))) with (length l + 1 * 2)%nat by lia.
    rewrite Nat.div_add by lia. lia.
Qed.

Lemma rows_written_code heap s :
  length (swap_pairs (code_of heap s)) = rows_written (length (c_chars s)).
Proof.
  rewrite swap_pairs_length_exact, code_of_length. unfold rows_written.
  change (length pre) with 4%nat. do 2 f_equal. lia.
Qed.

Lemma rows_written_bounds n :
  (n + 4 <= rows_written n <= n + 5)%nat.
Proof.
  unfold rows_written.
  pose proof (Nat.div_mod_eq (n + 5) 2) as H.
  pose proof (Nat.mod_upper_bound (n + 5) 2 ltac:(lia)). lia.
Qed.

Lemma rows_written_even n : Nat.Even n -> rows_written n = (n + 4)%nat.
Proof.
  intros [k ->]. unfold rows_written.
  replace (2 * k + 5)%nat with (1 + (k + 2) * 2)%nat by lia.
  rewrite Nat.div_add by lia. simpl. lia.
Qed.

Lemma rows_written_odd n : Nat.Odd n -> rows_written n = (n + 5)%nat.
Proof.
  intros [k ->]. unfold rows_written.
  replace (2 * k + 1 + 5)%nat with (0 + (k + 3) * 2)%nat by lia.
  rewrite Nat.div_add by lia. simpl. lia.
Qed.

(** X1: [flicker_data] on a challenge of n <= 250 characters keeps the table
    a 255 x 5 array and writes only its first rows: the n+4 rows of the text
    rounded up to whole pairs.  Every row from there on is what it was
    before the call, so rows of an earlier, longer challenge stay in the
    array behind the new ones. *)
Theorem flicker_data_frame heap challenge ba :
  let n := length (c_chars challenge) in
  wf_bitarray ba -> (n <= 250)%nat ->
  exists code ba',
    flicker_data heap challenge ba = Ok (code, ba') /\
    wf_bitarray ba' /\
    (n + 4 <= rows_written n <= n + 5)%nat /\
    (Nat.Even n -> rows_written n = (n + 4)%nat) /\
    forall j, (rows_written n <= j)%nat -> ba' !! j = ba !! j.
Proof.
  intros n Hwf Hn.
  destruct (flicker_data_rows heap challenge ba Hwf Hn)
    as (ba' & Hrun & Hwf' & _ & Hout).
  exists (code_of heap challenge), ba'.
  split; [exact Hrun|]. split; [exact Hwf'|].
  split; [apply rows_written_bounds|].
  split; [apply rows_written_even|].
  intros j Hj. apply Hout. now rewrite rows_written_code.
Qed.

Lemma flicker_data_frame_witness :
  exists code ba',
    flicker_data heap_zero "1A" (bitarray session_1A) = Ok (code, ba') /\
    wf_bitarray ba' /\
    forall j, (6 <= j)%nat -> ba' !! j = bitarray session_1A !! j.
Proof.
  destruct (flicker_data_frame heap_zero "1A"%string (bitarray session_1A))
    as (code & ba' & H1 & H2 & _ & H4 & H5).
  - apply wf_bitarrayb_spec. vm_compute. reflexivity.
  - vm_compute. lia.
  - exists code, ba'. split; [exact H1|]. split; [exact H2|].
    intros j Hj. apply H5. rewrite H4; [exact Hj|]. exists 1%nat. reflexivity.
Defined.

(** For an even number of characters the byte behind the text is not part
    of any pair. *)
Lemma swap_pairs_code_even heap s :
  Nat.Even (length (c_chars s)) ->
  swap_pairs (code_of heap s) = swap_pairs (prefixed s).
Proof.
  intros [k Hk]. unfold code_of.
  rewrite swap_pairs_app_even.
  - cbn [swap_pairs]. apply app_nil_r.
  - rewrite prefixed_length. exists (k + 2)%nat. lia.
Qed.

Lemma flicker_data_even heap s ba :
  wf_bitarray ba -> Nat.Even (length (c_chars s)) ->
  (length (c_chars s) <= 250)%nat ->
  flicker_data heap s ba
  = Ok (code_of heap s,
        swap_pairs (prefixed s) ++ drop (length (c_chars s) + 4) ba).
Proof.
  intros Hwf He Hn.
  rewrite flicker_data_spec; [|now apply wf_bitarray_length|exact Hn].
  rewrite rows_written_code, rows_written_even by exact He.
  now rewrite swap_pairs_code_even.
Qed.

(** X2: for a challenge of even length n <= 250 the table [flicker_data]
    leaves does not depend on what [malloc] left in the block: the
    unwritten last byte of [code] is never paired.  (The returned block
    itself does differ in that byte.) *)
Theorem even_challenge_ignores_heap heap1 heap2 challenge ba :
  let n := length (c_chars challenge) in
  wf_bitarray ba -> Nat.Even n -> (n <= 250)%nat ->
  exists code1 code2 ba',
    flicker_data heap1 challenge ba = Ok (code1, ba') /\
    flicker_data heap2 challenge ba = Ok (code2, ba') /\
    take (n + 4) code1 = take (n + 4) code2.
Proof.
  intros n Hwf He Hn.
  exists (code_of heap1 challenge), (code_of heap2 challenge),
    (swap_pairs (prefixed challenge) ++ drop (n + 4) ba).
  split; [now apply flicker_data_even|].
  split; [now apply flicker_data_even|].
  unfold code_of.
  rewrite !take_app_length' by (rewrite prefixed_length; fold n; lia).
  reflexivity.
Qed.

Lemma even_challenge_ignores_heap_witness :
  exists code1 code2 ba',
    flicker_data heap_zero "1A" bitarray_init = Ok (code1, ba') /\
    flicker_data (fun _ => "F"%char) "1A" bitarray_init = Ok (code2, ba') /\
    take 6 code1 = take 6 code2.
Proof.
  apply (even_challenge_ignores_heap heap_zero (fun _ => "F"%char) "1A"
           bitarray_init).
  - apply wf_bitarray_init.
  - exists 1%nat. reflexivity.
  - vm_compute. lia.
Defined.

(** X3: encoding is idempotent on the table: running [flicker_data] again
    with the same challenge and the same block contents on the table it
    has just produced changes nothing. *)
Theorem flicker_data_idempotent heap challenge ba :
  wf_bitarray ba -> (length (c_chars challenge) <= 250)%nat ->
  exists code ba',
    flicker_data heap challenge ba = Ok (code, ba') /\
    flicker_data heap challenge ba' = Ok (code, ba').
Proof.
  intros Hwf Hn.
  destruct (flicker_data_rows heap challenge ba Hwf Hn)
    as (ba' & Hrun & Hwf' & _).
  exists (code_of heap challenge), ba'. split; [exact Hrun|].
  rewrite flicker_data_spec in Hrun; [|now apply wf_bitarray_length|exact Hn].
  assert (ba' = swap_pairs (code_of heap challenge)
                  ++ drop (length (swap_pairs (code_of heap challenge))) ba)
    as Hba by congruence.
  rewrite flicker_data_spec; [|now apply wf_bitarray_length|exact Hn].
  clear Hrun Hwf'. subst ba'. now rewrite drop_app_length.
Qed.

Lemma flicker_data_idempotent_witness :
  exists code ba',
    flicker_data heap_zero "1A7" bitarray_init = Ok (code, ba') /\
    flicker_data heap_zero "1A7" ba' = Ok (code, ba').
Proof.
  apply (flicker_data_idempotent heap_zero "1A7" bitarray_init).
  - apply wf_bitarray_init.
  - vm_compute. lia.
Defined.

Lemma row_nibble_permuted v : 0 <= v <= 15 -> row_nibble (permuted v) = v.
Proof.
  intros H.
  assert (v = 0 \/ v = 1 \/ v = 2 \/ v = 3 \/ v = 4 \/ v = 5 \/ v = 6 \/ v = 7 \/
          v = 8 \/ v = 9 \/ v = 10 \/ v = 11 \/ v = 12 \/ v = 13 \/ v = 14 \/ v = 15)
    as Hv by lia.
  repeat (destruct Hv as [-> | Hv]; [reflexivity|]). subst v. reflexivity.
Qed.

Lemma permuted_nibble_inj c1 c2 :
  permuted (nibble c1) = permuted (nibble c2) -> nibble c1 = nibble c2.
Proof.
  intros H. apply (f_equal row_nibble) in H.
  now rewrite !row_nibble_permuted in H by apply get_num_range.
Qed.

Lemma swap_pairs_ext cs1 :
  forall cs2, nibble <$> cs1 = nibble <$> cs2 -> swap_pairs cs1 = swap_pairs cs2.
Proof.
  induction cs1 as [|a|a b l IH] using list_pair_ind;
    intros [|a' [|b' l']] H; try discriminate; try reflexivity.
  cbn in H. injection H as Ha Hb Hl.
  cbn [swap_pairs]. unfold nibble in Ha, Hb. unfold nibble at 1 2 3 4.
  rewrite Ha, Hb. f_equal. f_equal. apply IH. exact Hl.
Qed.

Lemma swap_pairs_inj cs1 :
  forall cs2, length cs1 = length cs2 -> Nat.Even (length cs1) ->
    swap_pairs cs1 = swap_pairs cs2 -> nibble <$> cs1 = nibble <$> cs2.
Proof.
  induction cs1 as [|a|a b l IH] using list_pair_ind;
    intros [|a' [|b' l']] Hlen He H; try discriminate; try reflexivity.
  - destruct He as [k Hk]. simpl in Hk. lia.
  - cbn [swap_pairs] in H. injection H as Hb Ha Hl.
    apply permuted_nibble_inj in Ha, Hb.
    cbn. rewrite Ha, Hb. f_equal. f_equal. apply IH.
    + simpl in Hlen. lia.
    + destruct He as [k Hk]. exists (k - 1)%nat. simpl in Hk. lia.
    + exact Hl.
Qed.

(** X4: what the table shows of a challenge of even length n <= 250 is
    exactly its sequence of nibbles.  For two such challenges of the same
    length, whatever the earlier table contents and block contents, the
    first n+4 table rows are equal if and only if the challenges have the
    same nibbles, character by character: challenges that differ only in
    the case of a letter, or in which invalid character stands for 0, are
    shown alike, and no two different nibble sequences are. *)
Theorem table_prefix_iff_same_nibbles heap1 heap2 s1 s2 ba1 ba2 :
  let n := length (c_chars s1) in
  wf_bitarray ba1 -> wf_bitarray ba2 ->
  length (c_chars s2) = n -> Nat.Even n -> (n <= 250)%nat ->
  exists code1 t1 code2 t2,
    flicker_data heap1 s1 ba1 = Ok (code1, t1) /\
    flicker_data heap2 s2 ba2 = Ok (code2, t2) /\
    (take (n + 4) t1 = take (n + 4) t2
     <-> nibble <$> c_chars s1 = nibble <$> c_chars s2).
Proof.
  intros n Hwf1 Hwf2 Hlen He Hn.
  eexists _, _, _, _.
  split; [apply flicker_data_even; assumption|].
  split; [apply flicker_data_even; rewrite ?Hlen; assumption|].
  rewrite Hlen. fold n.
  assert (forall s, length (c_chars s) = n ->
            length (swap_pairs (prefixed s)) = (n + 4)%nat) as Hsp.
  { intros s Hs. rewrite swap_pairs_length_even; rewrite prefixed_length, Hs.
    - lia.
    - destruct He as [k Hk]. exists (k + 2)%nat. lia. }
  rewrite !take_app_length' by (symmetry; now apply Hsp).
  unfold prefixed.
  rewrite !(swap_pairs_app_even pre) by (exists 2%nat; reflexivity).
  split.
  - intros H. apply app_inv_head in H.
    apply swap_pairs_inj; [symmetry; exact Hlen | exact He | exact H].
  - intros H. f_equal. now apply swap_pairs_ext.
Qed.

Lemma table_prefix_iff_same_nibbles_witness :
  exists code1 t1 code2 t2,
    flicker_data heap_zero "1a" bitarray_init = Ok (code1, t1) /\
    flicker_data (fun _ => "7"%char) "1A" (bitarray session_1A)
      = Ok (code2, t2) /\
    (take 6 t1 = take 6 t2 <-> nibble <$> c_chars "1a" = nibble <$> c_chars "1A").
Proof.
  apply (table_prefix_iff_same_nibbles heap_zero (fun _ => "7"%char)
           "1a" "1A" bitarray_init (bitarray session_1A)).
  - apply wf_bitarray_init.
  - apply wf_bitarrayb_spec. vm_compute. reflexivity.
  - reflexivity.
  - exists 1%nat. reflexivity.
  - vm_compute. lia.
Defined.




(** ** get_num *)

(** X6: [get_num] never confuses two hex digits: on the characters 0-9,
    A-F, a-f two characters have the same value only if they are the same
    digit, up to the case of a letter, and every value of 0..15 is the
    value of some hex digit. *)
Theorem get_num_injective_on_hex_digits :
  (forall ch1 ch2,
     is_hex ch1 = true -> is_hex ch2 = true ->
     get_num ch1 = get_num ch2 ->
     ch1 = ch2 \/ ch1 = ch2 + 32 \/ ch2 = ch1 + 32) /\
  (forall v, 0 <= v <= 15 ->
     exists ch, is_hex ch = true /\ get_num ch = v).
Proof.
  assert (forall ch, is_hex ch = true ->
            (48 <= ch <= 57 /\ get_num ch = ch - 48) \/
            (65 <= ch <= 70 /\ get_num ch = ch - 55) \/
            (97 <= ch <= 102 /\ get_num ch = ch - 87)) as Hcases.
  { intros ch H. unfold is_hex in H.
    apply orb_true_iff in H. destruct H as [H | H];
      [apply orb_true_iff in H; destruct H as [H | H]|];
      apply andb_true_iff in H; destruct H as [H1 H2];
      apply Z.leb_le in H1, H2.
    - left. split; [lia | now apply get_num_digit].
    - right. left. split; [lia | now apply get_num_upper].
    - right. right. split; [lia | now apply get_num_lower]. }
  split.
  - intros ch1 ch2 H1 H2 Heq.
    destruct (Hcases ch1 H1) as [[? E1] | [[? E1] | [? E1]]],
      (Hcases ch2 H2) as [[? E2] | [[? E2] | [? E2]]];
      rewrite E1, E2 in Heq; lia.
  - intros v Hv. destruct (Z.ltb_spec v 10).
    + exists (48 + v). split; [|rewrite get_num_digit; lia].
      unfold is_hex. apply orb_true_iff. left. apply orb_true_iff. left.
      apply andb_true_iff. split; apply Z.leb_le; lia.
    + exists (55 + v). split; [|rewrite get_num_upper; lia].
      unfold is_hex. apply orb_true_iff. left. apply orb_true_iff. right.
      apply andb_true_iff. split; apply Z.leb_le; lia.
Qed.

Lemma get_num_injective_on_hex_digits_witness :
  (get_num 98 = get_num 66 -> 98 = 66 \/ 98 = 66 + 32 \/ 66 = 98 + 32) /\
  (exists ch, is_hex ch = true /\ get_num ch = 13).
Proof.
  destruct get_num_injective_on_hex_digits as [H1 H2]. split.
  - apply H1; reflexivity.
  - apply H2. lia.
Defined.

(** ** The animator under any sequence of events *)

Lemma advance_in_range fd :
  0 <= halfbyteid fd < challenge_length fd ->
  challenge_length fd <= BITARRAY_ROWS ->
  0 <= halfbyteid (advance fd) < challenge_length fd /\
  challenge_length (advance fd) = challenge_length fd /\
  (clock (advance fd) = 0 \/ clock (advance fd) = 1) /\
  change_interval (advance fd) = change_interval fd /\
  interval (advance fd) = interval fd /\
  delay (advance fd) = delay fd.
Proof.
  intros Hh HL. unfold advance.
  destruct (clock fd =? 0); cbn.
  - rewrite to_uint_small by (unfold UINT_MODULUS, BITARRAY_ROWS in *; lia).
    destruct (Z.leb_spec (challenge_length fd) (halfbyteid fd + 1));
      repeat split; auto; lia.
  - repeat split; auto; lia.
Qed.

(** A redraw with the cursor in range. *)
Lemma do_flicker_drawing_in_range w :
  cursor_in_range w ->
  exists bars w',
    do_flicker_drawing w = Ok (bars, w') /\
    cursor_in_range w' /\
    length bars = 5%nat /\
    bars !! 0%nat = Some (to_Bool (clock (flickerdraw w))) /\
    (forall i, data_bits <$> bitarray w' !! i = data_bits <$> bitarray w !! i) /\
    flickerdraw w' = advance (flickerdraw w) /\
    main_context w' = main_context w /\
    draw_queued w' = draw_queued w.
Proof.
  intros ([Hrows Hwidth] & Hh & HL).
  set (h := Z.to_nat (halfbyteid (flickerdraw w))).
  assert (Z.to_nat BITARRAY_ROWS = 255%nat) as HR by reflexivity.
  assert (h < Z.to_nat BITARRAY_ROWS)%nat as Hlt
      by (unfold h, BITARRAY_ROWS in *; lia).
  destruct (lookup_lt_is_Some_2 (bitarray w) h ltac:(lia)) as [r Hr].
  pose proof (Forall_lookup_1 _ _ _ _ Hwidth Hr) as Hrlen. cbn beta in Hrlen.
  assert (halfbyteid (flickerdraw w) = Z.of_nat h) as Hh' by (unfold h; lia).
  rewrite (do_flicker_drawing_step w h r Hh' Hlt Hr Hrlen).
  destruct (advance_in_range (flickerdraw w) Hh HL) as (Ha & Hb & _).
  eexists _, _. split; [reflexivity|].
  destruct (row_shape r Hrlen) as (b0 & b1 & b2 & b3 & b4 & ->).
  split; [|repeat split].
  - unfold cursor_in_range.
    cbn [flickerdraw bitarray set_flickerdraw set_bitarray].
    rewrite Hb. repeat split; try lia.
    + rewrite length_insert. exact Hrows.
    + apply Forall_insert; [exact Hwidth | reflexivity].
  - intros i. cbn [flickerdraw bitarray set_flickerdraw set_bitarray].
    destruct (decide (i = h)) as [->|Hne].
    + rewrite list_lookup_insert_eq by lia. now rewrite Hr.
    + now rewrite list_lookup_insert_ne by congruence.
Qed.

Lemma timeout_dispatch_animator tag w :
  animator_state (timeout_dispatch tag w) = animator_state w.
Proof.
  unfold timeout_dispatch, time_handler.
  destruct (change_interval (flickerdraw w)); reflexivity.
Qed.

Lemma cursor_in_range_animator w1 w2 :
  animator_state w1 = animator_state w2 ->
  cursor_in_range w1 -> cursor_in_range w2.
Proof.
  unfold animator_state, cursor_in_range. intros H.
  injection H as Hh Hc Hl Hb. now rewrite Hh, Hl, Hb.
Qed.

Lemma advance_length fd : challenge_length (advance fd) = challenge_length fd.
Proof.
  unfold advance. destruct (clock fd =? 0); [reflexivity|].
  destruct (negb false); reflexivity.
Qed.

Lemma handle_in_range e w :
  cursor_in_range w ->
  exists w', handle e w = Ok w' /\ cursor_in_range w' /\
    challenge_length (flickerdraw w') = challenge_length (flickerdraw w) /\
    forall i, data_bits <$> bitarray w' !! i = data_bits <$> bitarray w !! i.
Proof.
  intros Hw. destruct e as [| |v]; cbn [handle].
  - unfold on_tick.
    set (w1 := timeout_dispatch _ w).
    assert (animator_state w1 = animator_state w) as Ha
        by apply timeout_dispatch_animator.
    assert (cursor_in_range w1) as Hw1
        by (eapply cursor_in_range_animator; [|exact Hw]; now rewrite Ha).
    unfold animator_state in Ha. injection Ha as _ _ HL Hb.
    destruct (draw_queued w1).
    + destruct (do_flicker_drawing_in_range (set_draw_queued false w1) Hw1)
        as (bars & w' & Hrun & Hr & _ & _ & Hd & Hfd & _).
      rewrite Hrun. cbn [bind]. exists w'. split; [reflexivity|].
      split; [exact Hr|]. split.
      * rewrite Hfd, advance_length. exact HL.
      * intros i. rewrite Hd. cbn [bitarray set_draw_queued]. now rewrite Hb.
    + cbn [bind]. exists w1. split; [reflexivity|]. split; [exact Hw1|].
      split; [exact HL|]. intros i. now rewrite Hb.
  - destruct (do_flicker_drawing_in_range (set_draw_queued false w) Hw)
      as (bars & w' & Hrun & Hr & _ & _ & Hd & Hfd & _).
    rewrite Hrun. cbn [bind]. exists w'. split; [reflexivity|].
    split; [exact Hr|]. split; [|exact Hd].
    rewrite Hfd. apply advance_length.
  - eexists. split; [reflexivity|]. split; [exact Hw|].
    split; reflexivity.
Qed.

(** X7: once the cursor is inside a table of at most 255 entries, no
    sequence of timer ticks, redraws that GTK asks for on its own, and
    delay changes makes the animator read or write outside [bitarray]: every
    event succeeds, the cursor stays below the table length, the table stays
    a 255 x 5 array, and the data slots 1..4 of every entry stay what the
    encoder wrote. *)
Theorem events_keep_cursor_in_range (es : list event) (w : World) :
  cursor_in_range w ->
  exists w',
    handle_all es w = Ok w' /\
    cursor_in_range w' /\
    challenge_length (flickerdraw w') = challenge_length (flickerdraw w) /\
    forall i, data_bits <$> bitarray w' !! i = data_bits <$> bitarray w !! i.
Proof.
  revert w. induction es as [|e es IH]; intros w Hw.
  - exists w. split; [reflexivity|]. split; [exact Hw|]. split; reflexivity.
  - destruct (handle_in_range e w Hw) as (w1 & Hrun & Hw1 & HL1 & Hd1).
    destruct (IH w1 Hw1) as (w' & Hrun' & Hw' & HL' & Hd').
    exists w'. cbn [handle_all]. rewrite Hrun. cbn [bind].
    split; [exact Hrun'|]. split; [exact Hw'|].
    split; [congruence|]. intros i. now rewrite Hd', Hd1.
Qed.

Lemma events_keep_cursor_in_range_witness :
  exists w',
    handle_all [Tick; Expose; SetDelay 100; Tick; Tick; Expose] session_1A
      = Ok w' /\
    cursor_in_range w' /\
    challenge_length (flickerdraw w') = 6.
Proof.
  destruct (events_keep_cursor_in_range
              [Tick; Expose; SetDelay 100; Tick; Tick; Expose] session_1A)
    as (w' & H1 & H2 & H3 & _).
  - split; [apply wf_bitarrayb_spec; vm_compute; reflexivity|].
    vm_compute. repeat split; discriminate.
  - exists w'. split; [exact H1|]. split; [exact H2 | exact H3].
Defined.

(** ** The timer *)

Lemma filter_other_sources (others : list (Z * Z)) tag :
  Forall (fun s => s.1 < tag) others ->
  filter (fun s => s.1 <> tag) others = others.
Proof.
  induction 1 as [|s l Hs _ IH]; [reflexivity|].
  rewrite filter_cons. destruct (decide (s.1 <> tag)) as [_|Hn].
  - now rewrite IH.
  - exfalso. apply Hn. lia.
Qed.

Lemma g_source_remove_own others tag ms next :
  Forall (fun s => s.1 < tag) others ->
  sources (g_source_remove tag
             {| sources := others ++ [(tag, ms)]; next_id := next |})
  = others.
Proof.
  intros H. cbn [g_source_remove sources].
  rewrite filter_app, (filter_other_sources _ _ H).
  rewrite filter_cons. cbn. destruct (decide (tag <> tag)); [congruence|].
  apply app_nil_r.
Qed.

Lemma own_timer_destroy others w :
  own_timer others w ->
  sources (main_context (on_flicker_challenge_destroy w)) = others.
Proof.
  intros (_ & Hs & Ho & _). unfold on_flicker_challenge_destroy.
  cbn [main_context set_main_context].
  destruct (main_context w) as [src next]. cbn [sources] in Hs. subst src.
  now apply g_source_remove_own.
Qed.

Lemma own_timer_set_delay others v w :
  own_timer others w ->
  own_timer others (on_spin_delay_value_changed v w) /\
  delay (flickerdraw (on_spin_delay_value_changed v w)) = to_uint v.
Proof.
  intros (_ & Hs & Ho & Hn). split; [|reflexivity].
  unfold own_timer, on_spin_delay_value_changed, time_handler.
  cbn [change_interval set_delay flickerdraw set_flickerdraw g_timeout_add
       main_context set_main_context snd sources next_id interval delay
       set_timer g_source_remove].
  rewrite Hs, filter_app, (filter_other_sources _ _ Ho), filter_cons. cbn.
  destruct (decide (interval (flickerdraw w) <> interval (flickerdraw w)));
    [congruence|].
  rewrite app_nil_r. repeat split; try lia.
  eapply Forall_impl; [exact Ho|]. cbn. intros s Hlt. lia.
Qed.

Lemma handle_own_timer others e w :
  cursor_in_range w -> own_timer others w ->
  exists w',
    handle e w = Ok w' /\ cursor_in_range w' /\ own_timer others w' /\
    delay (flickerdraw w') = delay_after [e] (delay (flickerdraw w)).
Proof.
  intros Hw Ht. pose proof Ht as (Hflag & Hs & Ho & Hn).
  assert (forall w0,
            cursor_in_range w0 -> own_timer others w0 ->
            exists bars w',
              do_flicker_drawing w0 = Ok (bars, w') /\ cursor_in_range w' /\
              own_timer others w' /\
              delay (flickerdraw w') = delay (flickerdraw w0)) as Hdraw.
  { intros w0 Hw0 (Hf0 & Hs0 & Ho0 & Hn0).
    destruct (do_flicker_drawing_in_range w0 Hw0)
      as (bars & w' & Hrun & Hr & _ & _ & _ & Hfd & Hctx & _).
    destruct Hw0 as (_ & Hh & HL).
    destruct (advance_in_range (flickerdraw w0) Hh HL)
      as (_ & _ & _ & Hf & Hi & Hd).
    exists bars, w'. split; [exact Hrun|]. split; [exact Hr|].
    unfold own_timer. rewrite Hfd, Hctx, Hf, Hi, Hd. repeat split; assumption. }
  destruct e as [| |v]; cbn [handle delay_after fold_left].
  - rewrite on_tick_idle by exact Hflag.
    destruct (Hdraw (set_draw_queued false (set_draw_queued true w)))
      as (bars & w' & Hrun & Hr & Ht' & Hd); [exact Hw | exact Ht |].
    rewrite Hrun. cbn [bind]. exists w'.
    split; [reflexivity|]. split; [exact Hr|]. split; [exact Ht' | exact Hd].
  - destruct (Hdraw (set_draw_queued false w))
      as (bars & w' & Hrun & Hr & Ht' & Hd); [exact Hw | exact Ht |].
    rewrite Hrun. cbn [bind]. exists w'.
    split; [reflexivity|]. split; [exact Hr|]. split; [exact Ht' | exact Hd].
  - destruct (own_timer_set_delay others v w Ht) as [Ht' Hd].
    eexists. split; [reflexivity|]. split; [exact Hw|].
    split; [exact Ht' | exact Hd].
Qed.

Lemma handle_all_own_timer others es :
  forall w,
    cursor_in_range w -> own_timer others w ->
    exists w',
      handle_all es w = Ok w' /\ cursor_in_range w' /\ own_timer others w' /\
      delay (flickerdraw w') = delay_after es (delay (flickerdraw w)).
Proof.
  induction es as [|e es IH]; intros w Hw Ht.
  - exists w. split; [reflexivity|]. split; [exact Hw|].
    split; [exact Ht | reflexivity].
  - destruct (handle_own_timer others e w Hw Ht) as (w1 & Hrun & Hw1 & Ht1 & Hd1).
    destruct (IH w1 Hw1 Ht1) as (w' & Hrun' & Hw' & Ht' & Hd').
    exists w'. cbn [handle_all]. rewrite Hrun. cbn [bind].
    split; [exact Hrun'|]. split; [exact Hw'|]. split; [exact Ht'|].
    rewrite Hd', Hd1. reflexivity.
Qed.

(** The state [on_flicker_challenge_map] leaves when the block is
    terminated, field by field. *)
Lemma map_terminated_state heap w :
  let s := challenge (flickerdraw w) in
  let n := length (c_chars s) in
  wf_bitarray (bitarray w) -> (n <= 250)%nat ->
  heap (length pre + n)%nat = NUL ->
  exists w',
    on_flicker_challenge_map heap w = Ok w' /\
    wf_bitarray (bitarray w') /\
    flickerdraw w'
      = set_timer (next_id (main_context w)) (change_interval (flickerdraw w))
          (set_challenge_length (Z.of_nat n + 4) (flickerdraw w)) /\
    main_context w'
      = {| sources := sources (main_context w)
                        ++ [(next_id (main_context w), delay (flickerdraw w))];
           next_id := next_id (main_context w) + 1 |} /\
    draw_queued w' = draw_queued w.
Proof.
  intros s n Hwf Hn Hnul.
  destruct (map_terminated heap w Hwf Hn Hnul) as (w' & Hrun & _ & _ & Hwf' & _).
  exists w'. split; [exact Hrun|]. split; [exact Hwf'|].
  revert Hrun. unfold on_flicker_challenge_map. cbv zeta.
  change (challenge (flickerdraw w)) with s.
  rewrite (flicker_data_spec heap s (bitarray w));
    [|now apply wf_bitarray_length | exact Hn].
  cbn [bind]. unfold code_of. fold n. rewrite Hnul.
  rewrite (strlen_text (prefixed s) []) by apply prefixed_no_nul.
  cbn [bind g_timeout_add]. rewrite prefixed_length. fold n.
  rewrite to_uint_small by (unfold UINT_MODULUS; lia).
  intros Hrun. injection Hrun as <-.
  cbn [flickerdraw main_context draw_queued set_main_context set_bitarray
       set_flickerdraw].
  repeat split. unfold set_timer, set_challenge_length. cbn.
  do 2 f_equal. lia.
Qed.

(** X8: the dialog runs exactly one timer and gives it back.  After
    [on_flicker_challenge_map] and any sequence of ticks, redraws and delay
    changes, the main context holds the sources it had before plus one
    source of the dialog, whose period is the delay in force (the value of
    the last delay change, or the initial delay); and
    [on_flicker_challenge_destroy] then leaves exactly the sources that were
    there before the dialog was mapped. *)
Theorem timer_started_once_and_removed heap (es : list event) (w : World) :
  let s := challenge (flickerdraw w) in
  let n := length (c_chars s) in
  wf_bitarray (bitarray w) -> (n <= 250)%nat ->
  heap (4 + n)%nat = NUL ->
  0 <= halfbyteid (flickerdraw w) < Z.of_nat n + 4 ->
  change_interval (flickerdraw w) = false ->
  Forall (fun s => s.1 < next_id (main_context w)) (sources (main_context w)) ->
  exists w1 w2,
    on_flicker_challenge_map heap w = Ok w1 /\
    handle_all es w1 = Ok w2 /\
    delay (flickerdraw w2) = delay_after es (delay (flickerdraw w)) /\
    sources (main_context w2)
      = sources (main_context w)
          ++ [(interval (flickerdraw w2), delay (flickerdraw w2))] /\
    Forall (fun s => s.1 <> interval (flickerdraw w2)) (sources (main_context w)) /\
    sources (main_context (on_flicker_challenge_destroy w2))
      = sources (main_context w).
Proof.
  intros s n Hwf Hn Hnul Hh Hflag Hids.
  destruct (map_terminated_state heap w Hwf Hn Hnul)
    as (w1 & Hmap & Hwf1 & Hfd & Hctx & _).
  assert (cursor_in_range w1) as Hr1.
  { unfold cursor_in_range. rewrite Hfd. cbn. split; [exact Hwf1|].
    fold s. fold n. unfold BITARRAY_ROWS. lia. }
  assert (own_timer (sources (main_context w)) w1) as Ht1.
  { unfold own_timer. rewrite Hfd, Hctx. cbn. repeat split; try assumption. lia. }
  destruct (handle_all_own_timer _ es w1 Hr1 Ht1) as (w2 & Hrun & _ & Ht2 & Hd).
  exists w1, w2. split; [exact Hmap|]. split; [exact Hrun|].
  split; [rewrite Hd, Hfd; reflexivity|].
  pose proof Ht2 as (_ & Hs2 & Ho2 & _).
  split; [exact Hs2|]. split.
  - eapply Forall_impl; [exact Ho2|]. cbn. intros x Hx. lia.
  - now apply own_timer_destroy.
Qed.

Lemma timer_started_once_and_removed_witness :
  exists w1 w2,
    on_flicker_challenge_map heap_zero (ini_flicker_gui None "1A" world_init)
      = Ok w1 /\
    handle_all [Tick; SetDelay 100; Tick; SetDelay 30; Expose] w1 = Ok w2 /\
    delay (flickerdraw w2) = 30 /\
    sources (main_context w2)
      = [(interval (flickerdraw w2), delay (flickerdraw w2))] /\
    sources (main_context (on_flicker_challenge_destroy w2)) = [].
Proof.
  destruct (timer_started_once_and_removed heap_zero
              [Tick; SetDelay 100; Tick; SetDelay 30; Expose]
              (ini_flicker_gui None "1A" world_init))
    as (w1 & w2 & H1 & H2 & H3 & H4 & _ & H6).
  - apply wf_bitarray_init.
  - vm_compute. lia.
  - reflexivity.
  - vm_compute. split; [discriminate | reflexivity].
  - reflexivity.
  - constructor.
  - exists w1, w2. repeat split; assumption.
Defined.

(** ** What the frames show *)

Lemma cursor_at_period L j :
  0 < L -> cursor_at L (j + 2 * Z.to_nat L) = cursor_at L j.
Proof.
  intros HL. unfold cursor_at.
  replace (Z.of_nat (j + 2 * Z.to_nat L)) with (Z.of_nat j + L * 2) by lia.
  rewrite Z.div_add by lia.
  replace (Z.of_nat j / 2 + L) with (Z.of_nat j / 2 + 1 * L) by lia.
  apply Z_mod_plus_full.
Qed.

Lemma even_period j k : Nat.even (j + 2 * k) = Nat.even j.
Proof.
  rewrite Nat.even_add, Nat.even_mul. cbn. now destruct (Nat.even j).
Qed.

Lemma initial_phase w :
  wf_bitarray (bitarray w) ->
  0 < challenge_length (flickerdraw w) ->
  halfbyteid (flickerdraw w) = 0 -> clock (flickerdraw w) = 1 ->
  change_interval (flickerdraw w) = false ->
  at_phase (bitarray w) (challenge_length (flickerdraw w)) 0 w.
Proof.
  intros Hwf HL Hh Hc Hflag. unfold at_phase.
  split; [exact Hflag|]. split; [reflexivity|].
  split; [|split; [rewrite Hc; reflexivity|split; [exact Hwf|reflexivity]]].
  rewrite Hh. unfold cursor_at. symmetry. apply Z.mod_0_l. lia.
Qed.

(** X9: the animation is cyclic with period twice the table length.  From
    the initial animator state over a table of L entries, frame j + 2L is
    the same as frame j, and after exactly 2L ticks cursor and clock are
    back at 0 and 1. *)
Theorem animation_has_period_2L w (n : nat) :
  let L := challenge_length (flickerdraw w) in
  wf_bitarray (bitarray w) ->
  0 < L <= BITARRAY_ROWS ->
  halfbyteid (flickerdraw w) = 0 ->
  clock (flickerdraw w) = 1 ->
  change_interval (flickerdraw w) = false ->
  exists frames w',
    run_ticks n w = Ok (frames, w') /\
    (forall j, (j + 2 * Z.to_nat L < n)%nat ->
       frames !! (j + 2 * Z.to_nat L)%nat = frames !! j) /\
    (n = (2 * Z.to_nat L)%nat ->
     halfbyteid (flickerdraw w') = 0 /\ clock (flickerdraw w') = 1).
Proof.
  intros L Hwf HL Hh Hc Hflag.
  pose proof (initial_phase w Hwf ltac:(fold L; lia) Hh Hc Hflag) as H0.
  destruct (run_ticks_phase (bitarray w) L HL n 0%nat w H0)
    as (fs & w' & Hrun & (_ & _ & Hh' & Hc' & _) & Hlen & Hfs).
  exists fs, w'. split; [exact Hrun|]. split.
  - intros j Hj. rewrite !Hfs by lia. cbn [Nat.add].
    now rewrite cursor_at_period, even_period by lia.
  - intros ->. cbn [Nat.add] in Hh', Hc'. split.
    + rewrite Hh'. unfold cursor_at.
      replace (Z.of_nat (2 * Z.to_nat L)) with (L * 2) by lia.
      rewrite Z.div_mul by lia. apply Z.mod_same. lia.
    + rewrite Hc'. unfold clock_at. now rewrite Nat.even_even.
Qed.

Lemma animation_has_period_2L_witness :
  exists frames w',
    run_ticks 12 session_1A = Ok (frames, w') /\
    halfbyteid (flickerdraw w') = 0 /\ clock (flickerdraw w') = 1.
Proof.
  destruct (animation_has_period_2L session_1A 12)
    as (frames & w' & H1 & _ & H3).
  - apply wf_bitarrayb_spec. vm_compute. reflexivity.
  - vm_compute. split; [reflexivity | discriminate].
  - reflexivity.
  - reflexivity.
  - reflexivity.
  - exists frames, w'. split; [exact H1|]. apply H3. reflexivity.
Defined.

Lemma swap_pairs_partner cs :
  forall i, Nat.Even (length cs) -> (i < length cs)%nat ->
    exists c, cs !! partner i = Some c /\
              swap_pairs cs !! i = Some (permuted (nibble c)).
Proof.
  induction cs as [|a|a b l IH] using list_pair_ind; intros i He Hi.
  - simpl in Hi. lia.
  - destruct He as [k Hk]. simpl in Hk. lia.
  - destruct i as [|[|i]].
    + exists b. split; reflexivity.
    + exists a. split; reflexivity.
    + destruct (IH i) as (c & Hc & Hs).
      * destruct He as [k Hk]. exists (k - 1)%nat. simpl in Hk. lia.
      * simpl in Hi. lia.
      * exists c. split; [|exact Hs].
        unfold partner in *. cbn [Nat.even].
        destruct (Nat.even i) eqn:E; [exact Hc|].
        destruct i as [|i]; [discriminate|]. exact Hc.
Qed.

(** X10: what is displayed is the challenge.  For a challenge of even
    length n <= 250 whose block is terminated, after
    [on_flicker_challenge_map] the first 2(n+4) ticks paint one full cycle:
    tick j paints the clock bar white for even j and black for odd j, and
    the four data bars show the bits, least significant first, of the nibble
    of character number partner(j/2) of "0FFF" followed by the challenge,
    the characters of each pair being shown in swapped order. *)
Theorem frames_show_the_challenge heap (w : World) :
  let s := challenge (flickerdraw w) in
  let n := length (c_chars s) in
  wf_bitarray (bitarray w) ->
  Nat.Even n -> (n <= 250)%nat ->
  heap (4 + n)%nat = NUL ->
  halfbyteid (flickerdraw w) = 0 -> clock (flickerdraw w) = 1 ->
  change_interval (flickerdraw w) = false ->
  exists w1 frames w2,
    on_flicker_challenge_map heap w = Ok w1 /\
    run_ticks (2 * (n + 4)) w1 = Ok (frames, w2) /\
    forall j, (j < 2 * (n + 4))%nat ->
      exists c,
        prefixed s !! partner (j / 2) = Some c /\
        frames !! j
        = Some (Some (Nat.even j :: data_bits (permuted (nibble c)))).
Proof.
  intros s n Hwf He Hn Hnul Hh Hc Hflag.
  destruct (map_terminated heap w Hwf Hn Hnul)
    as (w1 & Hmap & HL & Hba & Hwf1 & Hh1 & Hc1 & Hf1 & _).
  fold s in HL, Hba. fold n in HL.
  assert (Nat.Even (length (prefixed s))) as Hpe.
  { rewrite prefixed_length. fold n. destruct He as [k Hk].
    exists (k + 2)%nat. lia. }
  rewrite swap_pairs_app_even in Hba by exact Hpe.
  cbn [swap_pairs] in Hba. rewrite app_nil_r in Hba.
  assert (0 < challenge_length (flickerdraw w1) <= BITARRAY_ROWS) as HL1
      by (rewrite HL; unfold BITARRAY_ROWS; lia).
  pose proof (initial_phase w1 Hwf1 ltac:(lia) ltac:(congruence)
                ltac:(congruence) ltac:(congruence)) as H0.
  destruct (run_ticks_phase (bitarray w1) _ HL1 (2 * (n + 4)) 0%nat w1 H0)
    as (fs & w2 & Hrun & _ & _ & Hfs).
  exists w1, fs, w2. split; [exact Hmap|]. split; [exact Hrun|].
  intros j Hj. rewrite (Hfs j Hj). cbn [Nat.add]. rewrite HL.
  assert (cursor_at (Z.of_nat n + 4) j = Z.of_nat (j / 2)) as Hcur.
  { unfold cursor_at.
    replace (Z.of_nat j / 2) with (Z.of_nat (j / 2))
      by (rewrite Nat2Z.inj_div; reflexivity).
    apply Z.mod_small.
    pose proof (Nat.Div0.div_lt_upper_bound j 2 (n + 4) ltac:(lia)). lia. }
  rewrite Hcur, Nat2Z.id.
  assert (j / 2 < length (prefixed s))%nat as Hi.
  { rewrite prefixed_length. fold n.
    pose proof (Nat.Div0.div_lt_upper_bound j 2 (n + 4) ltac:(lia)). lia. }
  destruct (swap_pairs_partner (prefixed s) (j / 2)%nat Hpe Hi) as (c & Hcp & Hsp).
  exists c. split; [exact Hcp|].
  assert (bitarray w1 !! (j / 2)%nat = Some (permuted (nibble c))) as Hrow
      by (rewrite Hba; now apply lookup_app_l_Some).
  rewrite (list_lookup_total_correct _ _ _ Hrow).
  rewrite frame_of_data; [reflexivity|].
  intros Hnil. pose proof (permuted_length c) as Hl. rewrite Hnil in Hl.
  discriminate.
Qed.

Lemma frames_show_the_challenge_witness :
  exists w1 frames w2,
    on_flicker_challenge_map heap_zero (ini_flicker_gui None "1A" world_init)
      = Ok w1 /\
    run_ticks 12 w1 = Ok (frames, w2) /\
    exists c,
      prefixed "1A" !! partner (8 / 2) = Some c /\
      frames !! 8%nat = Some (Some (true :: data_bits (permuted (nibble c)))).
Proof.
  destruct (frames_show_the_challenge heap_zero
              (ini_flicker_gui None "1A" world_init))
    as (w1 & frames & w2 & H1 & H2 & H3).
  - apply wf_bitarray_init.
  - exists 1%nat. reflexivity.
  - vm_compute. lia.
  - reflexivity.
  - reflexivity.
  - reflexivity.
  - reflexivity.
  - exists w1, frames, w2. split; [exact H1|]. split; [exact H2|].
    apply (H3 8%nat). vm_compute. lia.
Defined.

(** ** Saved settings *)

Lemma to_int_range x : - 2 ^ 31 <= Gui.to_int x < 2 ^ 31.
Proof.
  unfold Gui.to_int.
  pose proof (Z.mod_pos_bound (x + 2 ^ 31) (2 ^ 32) ltac:(lia)). lia.
Qed.

Lemma to_uint_to_int x : 0 <= x < 2 ^ 32 -> to_uint (Gui.to_int x) = x.
Proof.
  intros H. unfold to_uint, Gui.to_int, UINT_MODULUS.
  destruct (Z.lt_ge_cases x (2 ^ 31)).
  - rewrite (Z.mod_small (x + 2 ^ 31)) by lia.
    replace (x + 2 ^ 31 - 2 ^ 31) with x by lia. apply Z.mod_small. lia.
  - replace (x + 2 ^ 31) with (x - 2 ^ 31 + 1 * 2 ^ 32) by lia.
    rewrite Z_mod_plus_full, (Z.mod_small (x - 2 ^ 31)) by lia.
    replace (x - 2 ^ 31 - 2 ^ 31) with (x + (-1) * 2 ^ 32) by lia.
    rewrite Z_mod_plus_full. apply Z.mod_small. lia.
Qed.

Lemma get_set_integer (kf : gmap (string * string) Z) g k x :
  0 <= x < 2 ^ 32 ->
  to_uint (Gui.g_key_file_get_integer
             (Gui.g_key_file_set_integer kf g k (Gui.to_int x)) g k) = x.
Proof.
  intros H. unfold Gui.g_key_file_get_integer, Gui.g_key_file_set_integer.
  rewrite lookup_insert_eq. pose proof (to_int_range x) as Hr.
  replace ((- 2 ^ 31 <=? Gui.to_int x) && (Gui.to_int x <? 2 ^ 31)) with true
    by (symmetry; apply andb_true_iff; split;
        [apply Z.leb_le | apply Z.ltb_lt]; lia).
  now apply to_uint_to_int.
Qed.

Lemma keys_differ :
  (Gui.GNC_STATE_SECTION, Gui.STATE_KEY_BARWIDTH)
  <> (Gui.GNC_STATE_SECTION, Gui.STATE_KEY_DELAY).
Proof. discriminate. Qed.

(** One of the two steps of [do_flicker_store_state]. *)
Lemma store_key_lookup (kf : gmap (string * string) Z) g k x d :
  let kf' :=
    if negb (x =? d) then Gui.g_key_file_set_integer kf g k (Gui.to_int x)
    else if Gui.g_key_file_has_key kf g k
         then Gui.g_key_file_remove_key kf g k
         else kf in
  kf' !! (g, k) = (if x =? d then None else Some (Gui.to_int x)) /\
  forall gk, gk <> (g, k) -> kf' !! gk = kf !! gk.
Proof.
  unfold Gui.g_key_file_set_integer, Gui.g_key_file_remove_key,
    Gui.g_key_file_has_key. cbv zeta.
  destruct (x =? d); cbn [negb].
  - destruct (kf !! (g, k)) eqn:E.
    + split; [apply lookup_delete_eq|].
      intros gk H. now rewrite lookup_delete_ne by congruence.
    + split; [exact E | reflexivity].
  - split; [apply lookup_insert_eq|].
    intros gk H. now rewrite lookup_insert_ne by congruence.
Qed.

(** The entries of the state file after [do_flicker_store_state]. *)
Lemma store_state_lookup (l : Gui.Layout) (fd : Flickerdraw)
  (kf : gmap (string * string) Z) :
  let kf' := Gui.do_flicker_store_state l fd kf in
  kf' !! (Gui.GNC_STATE_SECTION, Gui.STATE_KEY_BARWIDTH)
    = (if Gui.barwidth l =? Gui.BARWIDTH then None
       else Some (Gui.to_int (Gui.barwidth l))) /\
  kf' !! (Gui.GNC_STATE_SECTION, Gui.STATE_KEY_DELAY)
    = (if delay fd =? DELAY then None else Some (Gui.to_int (delay fd))) /\
  forall gk,
    gk <> (Gui.GNC_STATE_SECTION, Gui.STATE_KEY_BARWIDTH) ->
    gk <> (Gui.GNC_STATE_SECTION, Gui.STATE_KEY_DELAY) ->
    kf' !! gk = kf !! gk.
Proof.
  pose proof keys_differ as Hk.
  unfold Gui.do_flicker_store_state. cbv zeta.
  destruct (store_key_lookup kf Gui.GNC_STATE_SECTION Gui.STATE_KEY_BARWIDTH
              (Gui.barwidth l) Gui.BARWIDTH) as [Hb1 Hb2].
  cbv zeta in Hb1, Hb2.
  set (kf1 := if negb (Gui.barwidth l =? Gui.BARWIDTH) then _ else _) in *.
  destruct (store_key_lookup kf1 Gui.GNC_STATE_SECTION Gui.STATE_KEY_DELAY
              (delay fd) DELAY) as [Hd1 Hd2].
  cbv zeta in Hd1, Hd2.
  split; [|split].
  - rewrite Hd2 by exact Hk. exact Hb1.
  - exact Hd1.
  - intros gk H1 H2. rewrite Hd2 by exact H2. now apply Hb2.
Qed.

(** X11: the settings survive the dialog.  Whatever the state file held,
    after [on_dialog_destroy] has stored a bar width and a delay (any
    [guint] values), [do_flicker_load_state] reads the same bar width and
    the same delay back, also when they are the defaults 44 and 50, which
    are stored by removing the key. *)
Theorem settings_round_trip (l l0 : Gui.Layout) (fd fd0 : Flickerdraw)
  (kf : gmap (string * string) Z) :
  0 <= Gui.barwidth l < 2 ^ 32 -> 0 <= delay fd < 2 ^ 32 ->
  let loaded :=
    Gui.do_flicker_load_state (Gui.on_dialog_destroy l fd kf) l0 fd0 in
  Gui.barwidth loaded.1 = Gui.barwidth l /\ delay loaded.2 = delay fd.
Proof.
  intros Hb Hd. unfold Gui.on_dialog_destroy.
  destruct (store_state_lookup l fd kf) as (Hkb & Hkd & _). cbv zeta in Hkb, Hkd.
  unfold Gui.do_flicker_load_state, Gui.g_key_file_has_key,
    Gui.g_key_file_get_integer. cbv zeta. rewrite Hkb, Hkd.
  pose proof (to_int_range (Gui.barwidth l)) as Rb.
  pose proof (to_int_range (delay fd)) as Rd.
  cbn [fst snd]. split.
  - destruct (Z.eqb_spec (Gui.barwidth l) Gui.BARWIDTH) as [E|E];
      cbn [Gui.barwidth Gui.set_barwidth]; [congruence|].
    replace ((- 2 ^ 31 <=? Gui.to_int (Gui.barwidth l))
             && (Gui.to_int (Gui.barwidth l) <? 2 ^ 31)) with true
      by (symmetry; apply andb_true_iff; split;
          [apply Z.leb_le | apply Z.ltb_lt]; lia).
    now apply to_uint_to_int.
  - destruct (Z.eqb_spec (delay fd) DELAY) as [E|E];
      cbn [delay set_delay]; [congruence|].
    replace ((- 2 ^ 31 <=? Gui.to_int (delay fd))
             && (Gui.to_int (delay fd) <? 2 ^ 31)) with true
      by (symmetry; apply andb_true_iff; split;
          [apply Z.leb_le | apply Z.ltb_lt]; lia).
    now apply to_uint_to_int.
Qed.

Lemma settings_round_trip_witness :
  let kf : gmap (string * string) Z :=
    {[ (Gui.GNC_STATE_SECTION, Gui.STATE_KEY_DELAY) := 120 ]} in
  let l := Gui.set_barwidth 60 layout_zero in
  let fd := flickerdraw session_1A in
  let loaded :=
    Gui.do_flicker_load_state (Gui.on_dialog_destroy l fd kf)
      layout_zero (flickerdraw world_init) in
  Gui.barwidth loaded.1 = 60 /\ delay loaded.2 = 50.
Proof.
  apply (settings_round_trip (Gui.set_barwidth 60 layout_zero) layout_zero
           (flickerdraw session_1A) (flickerdraw world_init)).
  - cbn. lia.
  - vm_compute. split; [discriminate | reflexivity].
Defined.

(** X12: [do_flicker_store_state] keeps only settings that differ from the
    defaults in the state file and touches nothing else: afterwards the key
    "barwidth" of group "Flicker" exists exactly when the bar width is not
    44, the key "delay" exactly when the delay is not 50 (an existing key
    of a setting that is back at its default is removed), and every other
    entry of the file is what it was. *)
Theorem stored_settings_are_minimal (l : Gui.Layout) (fd : Flickerdraw)
  (kf : gmap (string * string) Z) :
  let kf' := Gui.do_flicker_store_state l fd kf in
  (Gui.g_key_file_has_key kf' Gui.GNC_STATE_SECTION Gui.STATE_KEY_BARWIDTH = true
   <-> Gui.barwidth l <> Gui.BARWIDTH) /\
  (Gui.g_key_file_has_key kf' Gui.GNC_STATE_SECTION Gui.STATE_KEY_DELAY = true
   <-> delay fd <> DELAY) /\
  forall group key,
    (group, key) <> (Gui.GNC_STATE_SECTION, Gui.STATE_KEY_BARWIDTH) ->
    (group, key) <> (Gui.GNC_STATE_SECTION, Gui.STATE_KEY_DELAY) ->
    kf' !! (group, key) = kf !! (group, key).
Proof.
  destruct (store_state_lookup l fd kf) as (Hkb & Hkd & Hother).
  cbv zeta in *. unfold Gui.g_key_file_has_key. rewrite Hkb, Hkd.
  split; [|split].
  - destruct (Z.eqb_spec (Gui.barwidth l) Gui.BARWIDTH); split;
      congruence.
  - destruct (Z.eqb_spec (delay fd) DELAY); split; congruence.
  - intros group key. apply Hother.
Qed.

Lemma stored_settings_are_minimal_witness :
  let kf : gmap (string * string) Z :=
    {[ (Gui.GNC_STATE_SECTION, Gui.STATE_KEY_DELAY) := 120;
       ("Other"%string, "key"%string) := 7 ]} in
  let kf' := Gui.do_flicker_store_state (Gui.set_barwidth 60 layout_zero)
               (flickerdraw session_1A) kf in
  Gui.g_key_file_has_key kf' Gui.GNC_STATE_SECTION Gui.STATE_KEY_BARWIDTH = true /\
  Gui.g_key_file_has_key kf' Gui.GNC_STATE_SECTION Gui.STATE_KEY_DELAY <> true /\
  kf' !! ("Other"%string, "key"%string) = Some 7.
Proof.
  intros kf kf'.
  destruct (stored_settings_are_minimal (Gui.set_barwidth 60 layout_zero)
              (flickerdraw session_1A) kf) as (H1 & H2 & H3).
  split; [|split].
  - apply H1. vm_compute. discriminate.
  - intros H. apply H2 in H. apply H. reflexivity.
  - unfold kf'. rewrite H3 by discriminate. reflexivity.
Defined.

(** ** The bars on the screen *)

Lemma first_bar_position_mod l :
  Gui.first_bar_position l
  = ((Gui.width l - 4 * Gui.margin l - 5 * Gui.barwidth l) mod 2 ^ 32) / 2.
Proof.
  unfold Gui.first_bar_position, to_uint, UINT_MODULUS.
  rewrite Zminus_mod_idemp_r, Zminus_mod_idemp_r, Zminus_mod_idemp_l.
  pose proof (Z.mod_pos_bound
                (Gui.width l - 4 * Gui.margin l - 5 * Gui.barwidth l)
                (2 ^ 32) ltac:(lia)) as Hb.
  apply Z.mod_small. split.
  - apply Z.div_pos; lia.
  - apply Z.div_lt_upper_bound; lia.
Qed.

Lemma bar_position_mod x0 i m b :
  to_uint (to_uint (x0 + to_uint (i * m)) + to_uint (i * b))
  = (x0 + i * (m + b)) mod 2 ^ 32.
Proof.
  unfold to_uint, UINT_MODULUS.
  rewrite Zplus_mod_idemp_r, Zplus_mod_idemp_r, Zplus_mod_idemp_l.
  f_equal. lia.
Qed.

(** The rectangle [draw_bit] paints for bar [i]. *)
Lemma draw_bit_rect l bit (i : nat) :
  (Gui.draw_bit l bit (Z.of_nat i)).1
  = {| Gui.rect_x := (Gui.x_drawpos l
                      + Z.of_nat i * (Gui.margin l + Gui.barwidth l)) mod 2 ^ 32;
       Gui.rect_y := Gui.y_barpos l;
       Gui.rect_width := Gui.barwidth l;
       Gui.rect_height := Gui.barheight l;
       Gui.rect_white := bit |}.
Proof.
  unfold Gui.draw_bit. cbn [fst Gui.x_barpos Gui.y_barpos Gui.barwidth
                            Gui.barheight Gui.set_x_barpos].
  now rewrite bar_position_mod.
Qed.

(** [do_flicker_drawing] with its geometry paints the bars of the plain
    [do_flicker_drawing], one rectangle a bar, and leaves the same state. *)
Lemma gui_drawing_bars W (l : Gui.Layout) w :
  let l1 := Gui.set_width (to_uint W) l in
  let l2 := Gui.set_x_drawpos (Gui.first_bar_position l1) l1 in
  match do_flicker_drawing w with
  | Ok (bars, w') =>
      length bars = 5%nat /\
      exists l3,
        Gui.do_flicker_drawing W l w
        = Ok (imap (fun i b => (Gui.draw_bit l2 b (Z.of_nat i)).1) bars, l3, w') /\
        Gui.x_drawpos l3 = Gui.first_bar_position l1 /\
        Gui.width l3 = to_uint W /\
        Gui.barwidth l3 = Gui.barwidth l /\
        Gui.margin l3 = Gui.margin l
  | UB => Gui.do_flicker_drawing W l w = UB
  | OutOfFuel => Gui.do_flicker_drawing W l w = OutOfFuel
  end.
Proof.
  intros l1 l2. unfold do_flicker_drawing, Gui.do_flicker_drawing.
  fold l1. fold l2.
  destruct (store_bit _ _ _ _) as [ba| |]; cbn [bind]; try reflexivity.
  cbn [draw_data_bits Gui.draw_data_rects].
  destruct (load_bit ba _ 1) as [b1| |]; cbn [bind]; try reflexivity.
  destruct (load_bit ba _ 2) as [b2| |]; cbn [bind]; try reflexivity.
  destruct (load_bit ba _ 3) as [b3| |]; cbn [bind]; try reflexivity.
  destruct (load_bit ba _ 4) as [b4| |]; cbn [bind]; try reflexivity.
  split; [reflexivity|]. eexists. split; [reflexivity|]. repeat split.
Qed.

Lemma first_bar_position_fits (l : Gui.Layout) :
  0 <= Gui.margin l -> 0 <= Gui.barwidth l ->
  4 * Gui.margin l + 5 * Gui.barwidth l <= Gui.width l < 2 ^ 32 ->
  Gui.first_bar_position l
  = (Gui.width l - (4 * Gui.margin l + 5 * Gui.barwidth l)) / 2.
Proof.
  intros Hm Hb HW. rewrite first_bar_position_mod.
  rewrite Z.mod_small by lia. f_equal. lia.
Qed.

Lemma first_bar_position_narrow (l : Gui.Layout) :
  0 <= Gui.margin l -> 0 <= Gui.barwidth l ->
  0 <= Gui.width l < 4 * Gui.margin l + 5 * Gui.barwidth l ->
  4 * Gui.margin l + 5 * Gui.barwidth l <= 2 ^ 32 ->
  Gui.first_bar_position l
  = (2 ^ 32 + Gui.width l - (4 * Gui.margin l + 5 * Gui.barwidth l)) / 2.
Proof.
  intros Hm Hb HW HS. rewrite first_bar_position_mod.
  replace (Gui.width l - 4 * Gui.margin l - 5 * Gui.barwidth l)
    with (2 ^ 32 + Gui.width l - (4 * Gui.margin l + 5 * Gui.barwidth l)
          + (-1) * 2 ^ 32) by lia.
  rewrite Z_mod_plus_full. now rewrite Z.mod_small by lia.
Qed.

(** X13: the bars are centred.  When the drawing area is at least as wide
    as the five bars and their four gaps, [do_flicker_drawing] paints the
    five bars of the frame left to right as rectangles of the bar width and
    bar height, bar [i] at [x0 + i * (margin + barwidth)] with
    [x0 = (W - (4 * margin + 5 * barwidth)) / 2], and the free space to the
    right of the last bar is the free space [x0] to the left of the first,
    or one pixel more. *)
Theorem bars_are_centred W (l : Gui.Layout) w bars w' :
  0 <= Gui.margin l -> 0 <= Gui.barwidth l ->
  4 * Gui.margin l + 5 * Gui.barwidth l <= W < 2 ^ 32 ->
  do_flicker_drawing w = Ok (bars, w') ->
  let m := Gui.margin l in
  let b := Gui.barwidth l in
  let x0 := (W - (4 * m + 5 * b)) / 2 in
  (exists l',
     Gui.do_flicker_drawing W l w
     = Ok (imap (fun i c =>
                   {| Gui.rect_x := x0 + Z.of_nat i * (m + b);
                      Gui.rect_y := Gui.y_barpos l;
                      Gui.rect_width := b;
                      Gui.rect_height := Gui.barheight l;
                      Gui.rect_white := c |}) bars, l', w')) /\
  let right := W - (x0 + 4 * (m + b) + b) in
  0 <= x0 /\ x0 <= right <= x0 + 1.
Proof.
  intros Hm Hb HW Hplain m b x0.
  assert (to_uint W = W) as HWu
    by (apply to_uint_small; unfold UINT_MODULUS; lia).
  assert (0 <= x0 /\ 2 * x0 <= W - (4 * m + 5 * b) <= 2 * x0 + 1) as Hx0.
  { unfold x0. pose proof (Z.div_mod (W - (4 * m + 5 * b)) 2 ltac:(lia)).
    pose proof (Z.mod_pos_bound (W - (4 * m + 5 * b)) 2 ltac:(lia)).
    split; [apply Z.div_pos|]; lia. }
  split; [|cbv zeta; lia].
  pose proof (gui_drawing_bars W l w) as H. cbv zeta in H.
  rewrite Hplain in H. destruct H as (Hlen & l' & -> & _).
  exists l'. do 2 f_equal. f_equal. apply imap_ext. intros i c Hi.
  apply lookup_lt_Some in Hi. rewrite draw_bit_rect.
  cbn [Gui.x_drawpos Gui.margin Gui.barwidth Gui.y_barpos Gui.barheight
       Gui.set_x_drawpos Gui.set_width].
  rewrite first_bar_position_fits;
    cbn [Gui.width Gui.margin Gui.barwidth Gui.set_width];
    rewrite ?HWu; try lia.
  fold m b x0. rewrite Z.mod_small by nia. reflexivity.
Qed.

(** X14: an area too narrow for the bars shows none of them.  When the
    drawing area is narrower than the five bars and their four gaps, the
    unsigned start position wraps around: every bar that
    [do_flicker_drawing] paints begins at or beyond 2^30 pixels and at or
    beyond the right edge of the area. *)
Theorem narrow_area_shows_no_bar W (l : Gui.Layout) w rects l' w' :
  0 <= Gui.margin l -> 0 <= Gui.barwidth l ->
  0 <= W < 4 * Gui.margin l + 5 * Gui.barwidth l ->
  4 * Gui.margin l + 5 * Gui.barwidth l <= 2 ^ 31 ->
  Gui.do_flicker_drawing W l w = Ok (rects, l', w') ->
  length rects = 5%nat /\
  Forall (fun r => W <= Gui.rect_x r /\ 2 ^ 30 <= Gui.rect_x r) rects.
Proof.
  intros Hm Hb HW HS Hgui.
  assert (to_uint W = W) as HWu
    by (apply to_uint_small; unfold UINT_MODULUS; lia).
  pose proof (gui_drawing_bars W l w) as H. cbv zeta in H.
  destruct (do_flicker_drawing w) as [[bars w'']| |];
    [|congruence|congruence].
  destruct H as (Hlen & l3 & Heq & _). rewrite Heq in Hgui.
  assert (rects = imap (fun i b =>
            (Gui.draw_bit
               (Gui.set_x_drawpos
                  (Gui.first_bar_position (Gui.set_width (to_uint W) l))
                  (Gui.set_width (to_uint W) l)) b (Z.of_nat i)).1) bars)
    as -> by congruence.
  split; [now rewrite length_imap|].
  apply Forall_lookup. intros i r Hi.
  rewrite list_lookup_imap in Hi.
  destruct (bars !! i) as [c|] eqn:Hc; [|discriminate].
  apply lookup_lt_Some in Hc. injection Hi as <-.
  cbn [Gui.rect_x]. rewrite bar_position_mod.
  rewrite first_bar_position_narrow;
    cbn [Gui.width Gui.margin Gui.barwidth Gui.set_width];
    rewrite ?HWu; try lia.
  set (S := 4 * Gui.margin l + 5 * Gui.barwidth l) in *.
  assert (2 ^ 30 <= (2 ^ 32 + W - S) / 2 < 2 ^ 31) as Hx0.
  { split; [apply Z.div_le_lower_bound | apply Z.div_lt_upper_bound]; lia. }
  assert (W <= (2 ^ 32 + W - S) / 2) as HxW.
  { apply Z.div_le_lower_bound; lia. }
  rewrite Z.mod_small by (unfold S in *; nia). unfold S in *. nia.
Qed.

Lemma bars_are_centred_witness :
  (exists l',
     Gui.do_flicker_drawing 600 layout_1A session_1A
     = Ok (imap (fun i c =>
                   {| Gui.rect_x := 166 + Z.of_nat i * 56;
                      Gui.rect_y := 20;
                      Gui.rect_width := 44;
                      Gui.rect_height := 200;
                      Gui.rect_white := c |}) frame_1A.1, l', frame_1A.2)) /\
  0 <= 166 /\ 166 <= 166 <= 167.
Proof.
  apply (bars_are_centred 600 layout_1A session_1A frame_1A.1 frame_1A.2).
  - vm_compute. discriminate.
  - vm_compute. discriminate.
  - vm_compute. split; [discriminate | reflexivity].
  - vm_compute. reflexivity.
Defined.

Lemma narrow_area_shows_no_bar_witness :
  length (imap (fun i c => (Gui.draw_bit
                  (Gui.set_x_drawpos
                     (Gui.first_bar_position (Gui.set_width 200 layout_1A))
                     (Gui.set_width 200 layout_1A)) c (Z.of_nat i)).1)
            frame_1A.1) = 5%nat /\
  Forall (fun r => 200 <= Gui.rect_x r /\ 2 ^ 30 <= Gui.rect_x r)
    (imap (fun i c => (Gui.draw_bit
             (Gui.set_x_drawpos
                (Gui.first_bar_position (Gui.set_width 200 layout_1A))
                (Gui.set_width 200 layout_1A)) c (Z.of_nat i)).1)
       frame_1A.1).
Proof.
  apply (narrow_area_shows_no_bar 200 layout_1A session_1A _
           (Gui.set_x_barpos 2147483838
              (Gui.set_x_drawpos
                 (Gui.first_bar_position (Gui.set_width 200 layout_1A))
                 (Gui.set_width 200 layout_1A)))
           frame_1A.2).
  - vm_compute. discriminate.
  - vm_compute. discriminate.
  - vm_compute. split; [discriminate | reflexivity].
  - vm_compute. discriminate.
  - vm_compute. reflexivity.
Defined.

(** ** The markers *)

(** The rectangles of a successful redraw. *)
Lemma gui_drawing_rects W (l : Gui.Layout) w rects l' w' :
  Gui.do_flicker_drawing W l w = Ok (rects, l', w') ->
  let l1 := Gui.set_width (to_uint W) l in
  let x0 := Gui.first_bar_position l1 in
  (exists r0 r1 r2 r3 r4,
     rects = [r0; r1; r2; r3; r4] /\
     Gui.rect_x r0 = x0 mod 2 ^ 32 /\
     Gui.rect_x r4
     = (x0 + 4 * (Gui.margin l + Gui.barwidth l)) mod 2 ^ 32 /\
     Gui.rect_width r0 = Gui.barwidth l /\
     Gui.rect_width r4 = Gui.barwidth l) /\
  Gui.x_drawpos l' = x0 /\ Gui.width l' = to_uint W /\
  Gui.barwidth l' = Gui.barwidth l /\ Gui.margin l' = Gui.margin l.
Proof.
  intros Hgui l1 x0.
  pose proof (gui_drawing_bars W l w) as H. cbv zeta in H.
  destruct (do_flicker_drawing w) as [[bars w'']| |];
    [|congruence|congruence].
  destruct H as (Hlen & l3 & Heq & Hl3). rewrite Heq in Hgui.
  assert (l3 = l') as <- by congruence.
  split; [|exact Hl3].
  destruct bars as [|c0 [|c1 [|c2 [|c3 [|c4 [|]]]]]]; try discriminate Hlen.
  do 5 eexists. split; [injection Hgui as <- _; reflexivity|].
  cbn [Gui.rect_x Gui.rect_width]. rewrite !bar_position_mod.
  fold l1. fold x0. repeat split; f_equal; lia.
Qed.

Lemma mod_sum a b c d n :
  (((a + b mod n) mod n + c mod n) mod n + d) mod n = (a + b + c + d) mod n.
Proof.
  rewrite Zplus_mod_idemp_l, <- Z.add_assoc, Zplus_mod_idemp_l.
  replace (a + b mod n + (c mod n + d)) with (a + d + b mod n + c mod n) by lia.
  rewrite Zplus_mod_idemp_r.
  replace (a + d + b mod n + c) with (a + d + c + b mod n) by lia.
  rewrite Zplus_mod_idemp_r. f_equal. lia.
Qed.

Lemma marker_tips (l : Gui.Layout) :
  Gui.tip (Gui.do_marker_drawing l).1
  = ((Gui.x_drawpos l + Gui.barwidth l / 2) mod 2 ^ 32, 20) /\
  Gui.tip (Gui.do_marker_drawing l).2
  = ((Gui.x_drawpos l + 4 * (Gui.margin l + Gui.barwidth l)
      + Gui.barwidth l / 2) mod 2 ^ 32, 20).
Proof.
  unfold Gui.do_marker_drawing. cbn [fst snd Gui.tip]. split; [reflexivity|].
  f_equal. unfold to_uint, UINT_MODULUS. rewrite mod_sum. f_equal. lia.
Qed.

(** X15: the markers follow the bar width.  When the bar width is changed
    to a value with which the bars still fit the area,
    [on_spin_barwidth_value_changed] leaves a layout with which
    [do_marker_drawing] puts the tips of its two triangles, at height 20,
    over the middle of the first and of the fifth bar that the next
    [do_flicker_drawing] paints in an area of unchanged width. *)
Theorem markers_follow_bar_width v (l : Gui.Layout) w rects l' w' :
  0 <= Gui.margin l -> 0 <= v ->
  4 * Gui.margin l + 5 * v <= Gui.width l < 2 ^ 32 ->
  let l1 := Gui.on_spin_barwidth_value_changed v l in
  Gui.do_flicker_drawing (Gui.width l) l1 w = Ok (rects, l', w') ->
  exists r0 r4,
    rects !! 0%nat = Some r0 /\ rects !! 4%nat = Some r4 /\
    Gui.rect_width r0 = v /\ Gui.rect_width r4 = v /\
    Gui.tip (Gui.do_marker_drawing l1).1 = (Gui.rect_x r0 + v / 2, 20) /\
    Gui.tip (Gui.do_marker_drawing l1).2 = (Gui.rect_x r4 + v / 2, 20).
Proof.
  intros Hm Hv HW l1 Hgui.
  assert (to_uint v = v) as Hvu
    by (apply to_uint_small; unfold UINT_MODULUS; lia).
  assert (to_uint (Gui.width l) = Gui.width l) as HWu
    by (apply to_uint_small; unfold UINT_MODULUS; lia).
  set (x0 := (Gui.width l - (4 * Gui.margin l + 5 * v)) / 2).
  assert (0 <= x0 /\ 2 * x0 <= Gui.width l - (4 * Gui.margin l + 5 * v)) as Hx.
  { unfold x0.
    pose proof (Z.div_mod (Gui.width l - (4 * Gui.margin l + 5 * v)) 2
                  ltac:(lia)).
    pose proof (Z.mod_pos_bound (Gui.width l - (4 * Gui.margin l + 5 * v)) 2
                  ltac:(lia)).
    split; [apply Z.div_pos|]; lia. }
  assert (0 <= v / 2 /\ 2 * (v / 2) <= v) as Hhalf.
  { pose proof (Z.div_mod v 2 ltac:(lia)).
    pose proof (Z.mod_pos_bound v 2 ltac:(lia)).
    split; [apply Z.div_pos|]; lia. }
  assert (Gui.margin l1 = Gui.margin l /\ Gui.barwidth l1 = v) as (Hm1 & Hb1)
    by (split; [reflexivity | exact Hvu]).
  assert (Gui.x_drawpos l1 = x0) as Hd1.
  { unfold l1, Gui.on_spin_barwidth_value_changed.
    cbn [Gui.x_drawpos Gui.set_x_drawpos]. rewrite Hvu.
    rewrite first_bar_position_fits;
      cbn [Gui.width Gui.margin Gui.barwidth Gui.set_barwidth];
      [reflexivity|lia..]. }
  assert (Gui.first_bar_position (Gui.set_width (to_uint (Gui.width l)) l1)
          = x0) as Hd2.
  { unfold l1, Gui.on_spin_barwidth_value_changed. rewrite Hvu, HWu.
    rewrite first_bar_position_fits;
      cbn [Gui.width Gui.margin Gui.barwidth Gui.set_barwidth
           Gui.set_x_drawpos Gui.set_width];
      [reflexivity|lia..]. }
  destruct (gui_drawing_rects _ _ _ _ _ _ Hgui)
    as ((r0 & r1 & r2 & r3 & r4 & -> & Hx0 & Hx4 & Hw0 & Hw4) & _).
  destruct (marker_tips l1) as (-> & ->).
  rewrite Hd2, Hm1, Hb1 in *. rewrite Hd1.
  rewrite Z.mod_small in Hx0 by lia. rewrite Z.mod_small in Hx4 by lia.
  exists r0, r4. rewrite Hx0, Hx4, !Z.mod_small by lia.
  repeat split; assumption.
Qed.

Lemma markers_follow_bar_width_witness :
  exists r0 r4,
    (imap (fun i c => (Gui.draw_bit
             (Gui.on_spin_barwidth_value_changed 60
                (Gui.set_width 600 layout_1A)) c (Z.of_nat i)).1)
       frame_1A.1) !! 0%nat = Some r0 /\
    (imap (fun i c => (Gui.draw_bit
             (Gui.on_spin_barwidth_value_changed 60
                (Gui.set_width 600 layout_1A)) c (Z.of_nat i)).1)
       frame_1A.1) !! 4%nat = Some r4 /\
    Gui.rect_width r0 = 60 /\ Gui.rect_width r4 = 60 /\
    Gui.tip (Gui.do_marker_drawing
               (Gui.on_spin_barwidth_value_changed 60
                  (Gui.set_width 600 layout_1A))).1
    = (Gui.rect_x r0 + 60 / 2, 20) /\
    Gui.tip (Gui.do_marker_drawing
               (Gui.on_spin_barwidth_value_changed 60
                  (Gui.set_width 600 layout_1A))).2
    = (Gui.rect_x r4 + 60 / 2, 20).
Proof.
  apply (markers_follow_bar_width 60 (Gui.set_width 600 layout_1A) session_1A
           _ (Gui.set_x_barpos 414
                (Gui.on_spin_barwidth_value_changed 60
                   (Gui.set_width 600 layout_1A)))
           frame_1A.2).
  - vm_compute. discriminate.
  - vm_compute. discriminate.
  - vm_compute. split; [discriminate | reflexivity].
  - vm_compute. reflexivity.
Defined.

Lemma marker_triangles (l : Gui.Layout) :
  let p1 := (Gui.x_drawpos l + Gui.barwidth l / 2) mod 2 ^ 32 in
  let p2 := (Gui.x_drawpos l + 4 * (Gui.margin l + Gui.barwidth l)
             + Gui.barwidth l / 2) mod 2 ^ 32 in
  Gui.do_marker_drawing l
  = ({| Gui.tip := (p1, 20); Gui.corner_b := ((p1 + 10) mod 2 ^ 32, 2);
        Gui.corner_c := ((p1 - 10) mod 2 ^ 32, 2) |},
     {| Gui.tip := (p2, 20); Gui.corner_b := ((p2 + 10) mod 2 ^ 32, 2);
        Gui.corner_c := ((p2 - 10) mod 2 ^ 32, 2) |}).
Proof.
  intros p1 p2. unfold Gui.do_marker_drawing.
  assert (to_uint
            (to_uint (to_uint (Gui.x_drawpos l + to_uint (4 * Gui.margin l))
                      + to_uint (4 * Gui.barwidth l))
             + Gui.barwidth l / 2) = p2) as ->.
  { unfold to_uint, UINT_MODULUS. rewrite mod_sum. unfold p2. f_equal. lia. }
  reflexivity.
Qed.

(** X16: the markers point at the outer bars.  After a redraw in an area
    that holds the bars, with a bar width of at least 20,
    [do_marker_drawing] paints two triangles that are symmetric about the
    middle of the first bar and the middle of the fifth bar just painted:
    the tip at height 20 over the middle, the other two corners at height
    2, ten pixels to its right and ten to its left. *)
Theorem markers_point_at_outer_bars W (l : Gui.Layout) w rects l' w' :
  0 <= Gui.margin l -> 20 <= Gui.barwidth l ->
  4 * Gui.margin l + 5 * Gui.barwidth l <= W < 2 ^ 32 ->
  Gui.do_flicker_drawing W l w = Ok (rects, l', w') ->
  exists r0 r4,
    rects !! 0%nat = Some r0 /\ rects !! 4%nat = Some r4 /\
    let c0 := Gui.rect_x r0 + Gui.rect_width r0 / 2 in
    let c4 := Gui.rect_x r4 + Gui.rect_width r4 / 2 in
    Gui.do_marker_drawing l'
    = ({| Gui.tip := (c0, 20); Gui.corner_b := (c0 + 10, 2);
          Gui.corner_c := (c0 - 10, 2) |},
       {| Gui.tip := (c4, 20); Gui.corner_b := (c4 + 10, 2);
          Gui.corner_c := (c4 - 10, 2) |}).
Proof.
  intros Hm Hb HW Hgui.
  assert (to_uint W = W) as HWu
    by (apply to_uint_small; unfold UINT_MODULUS; lia).
  set (b := Gui.barwidth l) in *. set (m := Gui.margin l) in *.
  set (x0 := (W - (4 * m + 5 * b)) / 2).
  assert (0 <= x0 /\ 2 * x0 <= W - (4 * m + 5 * b)) as Hx.
  { unfold x0. pose proof (Z.div_mod (W - (4 * m + 5 * b)) 2 ltac:(lia)).
    pose proof (Z.mod_pos_bound (W - (4 * m + 5 * b)) 2 ltac:(lia)).
    split; [apply Z.div_pos|]; lia. }
  assert (10 <= b / 2 /\ 2 * (b / 2) <= b) as Hhalf.
  { pose proof (Z.div_mod b 2 ltac:(lia)).
    pose proof (Z.mod_pos_bound b 2 ltac:(lia)).
    split; [apply Z.div_le_lower_bound|]; lia. }
  assert (Gui.first_bar_position (Gui.set_width (to_uint W) l) = x0) as Hd.
  { rewrite HWu.
    rewrite first_bar_position_fits;
      cbn [Gui.width Gui.margin Gui.barwidth Gui.set_width];
      [reflexivity|unfold b, m in *; lia..]. }
  destruct (gui_drawing_rects _ _ _ _ _ _ Hgui)
    as ((r0 & r1 & r2 & r3 & r4 & -> & Hx0 & Hx4 & Hw0 & Hw4)
        & Hl1 & _ & Hl2 & Hl3).
  fold b in Hx0, Hx4, Hw0, Hw4, Hl2. fold m in Hx4, Hl3.
  rewrite Hd in Hx0, Hx4, Hl1.
  rewrite Z.mod_small in Hx0 by lia. rewrite Z.mod_small in Hx4 by lia.
  exists r0, r4. split; [reflexivity|]. split; [reflexivity|]. cbv zeta.
  rewrite marker_triangles. cbv zeta. rewrite Hl1, Hl2, Hl3, Hx0, Hx4, Hw0, Hw4.
  rewrite !(Z.mod_small (x0 + b / 2)) by lia.
  rewrite !(Z.mod_small (x0 + 4 * (m + b) + b / 2)) by lia.
  rewrite !Z.mod_small by lia. reflexivity.
Qed.

Lemma markers_point_at_outer_bars_witness :
  exists r0 r4,
    (imap (fun i c =>
             {| Gui.rect_x := 166 + Z.of_nat i * 56; Gui.rect_y := 20;
                Gui.rect_width := 44; Gui.rect_height := 200;
                Gui.rect_white := c |}) frame_1A.1) !! 0%nat = Some r0 /\
    (imap (fun i c =>
             {| Gui.rect_x := 166 + Z.of_nat i * 56; Gui.rect_y := 20;
                Gui.rect_width := 44; Gui.rect_height := 200;
                Gui.rect_white := c |}) frame_1A.1) !! 4%nat = Some r4 /\
    let c0 := Gui.rect_x r0 + Gui.rect_width r0 / 2 in
    let c4 := Gui.rect_x r4 + Gui.rect_width r4 / 2 in
    Gui.do_marker_drawing
      (Gui.set_x_barpos 390
         (Gui.set_x_drawpos 166 (Gui.set_width 600 layout_1A)))
    = ({| Gui.tip := (c0, 20); Gui.corner_b := (c0 + 10, 2);
          Gui.corner_c := (c0 - 10, 2) |},
       {| Gui.tip := (c4, 20); Gui.corner_b := (c4 + 10, 2);
          Gui.corner_c := (c4 - 10, 2) |}).
Proof.
  apply (markers_point_at_outer_bars 600 layout_1A session_1A _ _ frame_1A.2).
  - vm_compute. discriminate.
  - vm_compute. discriminate.
  - vm_compute. split; [discriminate | reflexivity].
  - vm_compute. reflexivity.
Defined.


